(** * bbotscript: the periodic multi-domain scan scheduler

    A shallow embedding of [bbotscript.py].  The schedule is a Python list of
    dicts mutated in place by the scheduler loop and by the completion
    callbacks; here it is a [list task] and a dict reference is its index in
    that list.  Clock readings ([time.time()]) are inputs of the functions that
    read the clock.  Timestamps are Python floats: they are modelled as exact
    rationals extended with [math.inf]; float rounding is not modelled. *)

From Stdlib Require Import QArith Qminmax Qabs Lqa Lia ZArith.
From Stdlib Require Import String Ascii DecimalString.
From Stdlib Require Import Sorting.Sorted Sorting.Permutation.
From stdpp Require Import base list.

Local Open Scope list_scope.
Local Open Scope string_scope.

(** ** Timestamps *)

(** The values held by [s["next"]]: a clock reading, or [math.inf]. *)
Inductive stamp : Type :=
| Finite (t : Q)
| Infinite.

(** [a < b] on floats, with [math.inf] above every clock reading. *)
Definition stamp_ltb (a b : stamp) : bool :=
  match a, b with
  | Finite x, Finite y => negb (Qle_bool y x)
  | Finite _, Infinite => true
  | Infinite, _ => false
  end.

(** [a <= b] on floats. *)
Definition stamp_leb (a b : stamp) : bool :=
  match a, b with
  | Finite x, Finite y => Qle_bool x y
  | _, Infinite => true
  | Infinite, Finite _ => false
  end.

(** [a - now], where [now] is a clock reading. *)
Definition stamp_sub (a : stamp) (now : Q) : stamp :=
  match a with
  | Finite x => Finite (x - now)
  | Infinite => Infinite
  end.

(** Python's two-argument [max(a, b)]: [b] replaces [a] only when [b > a]. *)
Definition py_max (a b : stamp) : stamp :=
  if stamp_ltb a b then b else a.

(** Python's [min] over a non-empty list, given as head and tail: a later
    item replaces the current minimum only when it is strictly smaller. *)
Definition py_min (x : stamp) (xs : list stamp) : stamp :=
  fold_left (fun m y => if stamp_ltb y m then y else m) xs x.

Definition stamp_lt (a b : stamp) : Prop := stamp_ltb a b = true.
Definition stamp_le (a b : stamp) : Prop := stamp_leb a b = true.
Definition stamp_eq (a b : stamp) : Prop := stamp_le a b /\ stamp_le b a.

(** ** Text helpers *)

Definition str_of_Z (z : Z) : string := NilZero.string_of_int (Z.to_int z).

(** Rounding of a non-negative rational to the nearest integer, ties to even. *)
Definition round_half_even (q : Q) : Z :=
  let n := Qnum q in
  let d := Zpos (Qden q) in
  let fl := (n / d)%Z in
  let r2 := (2 * (n mod d))%Z in
  if (r2 <? d)%Z then fl
  else if (d <? r2)%Z then (fl + 1)%Z
  else if Z.even fl then fl else (fl + 1)%Z.

(** The format specification [{duration:.1f}]. *)
Definition format_1f (q : Q) : string :=
  let m := round_half_even (Qabs q * 10) in
  (if (Qnum q <? 0)%Z then "-" else "")
    ++ str_of_Z (m / 10) ++ "." ++ str_of_Z (m mod 10).

(** [sep.join(l)] *)
Fixpoint join (sep : string) (l : list string) : string :=
  match l with
  | [] => ""
  | [x] => x
  | x :: rest => x ++ sep ++ join sep rest
  end.

Module Shlex.

Definition between (lo hi c : nat) : bool := (lo <=? c)%nat && (c <=? hi)%nat.

(** The complement of the class [[^\w@%+=:,./-]] under [re.ASCII]. *)
Definition safe_char (c : ascii) : bool :=
  let n := nat_of_ascii c in
  between 97 122 n || between 65 90 n || between 48 57 n
  || existsb (Nat.eqb n) [95; 64; 37; 43; 61; 58; 44; 46; 47; 45]%nat.

Fixpoint all_safe (s : string) : bool :=
  match s with
  | EmptyString => true
  | String c rest => safe_char c && all_safe rest
  end.

Definition dquote : string := String (ascii_of_nat 34) EmptyString.

(** [s.replace]: each single quote becomes quote, double quote, quote,
    double quote, quote. *)
Fixpoint escape (s : string) : string :=
  match s with
  | EmptyString => EmptyString
  | String c rest =>
      if Ascii.eqb c "'"%char
      then "'" ++ dquote ++ "'" ++ dquote ++ "'" ++ escape rest
      else String c (escape rest)
  end.

Definition quote (s : string) : string :=
  match s with
  | EmptyString => "''"
  | _ => if all_safe s then s else "'" ++ escape s ++ "'"
  end.

Definition join (cmd : list string) : string :=
  join " " (map quote cmd).

End Shlex.

(** A substring test, for statements about what a log line contains. *)
Fixpoint contains (needle hay : string) : bool :=
  String.prefix needle hay
  || match hay with
     | EmptyString => false
     | String _ rest => contains needle rest
     end.

(** ** Data model *)

(** One dict of [schedule]. *)
Record task : Type := mk_task {
  domain : string;
  name : string;
  args : list string;
  period : Z;
  next : stamp;
  running : bool
}.

(** One dict of [SCANS]. *)
Record scan : Type := mk_scan {
  scan_name : string;
  scan_args : list string;
  scan_period : Z
}.

Definition SCANS : list scan :=
  [ mk_scan "web_probe" ["-p"; "web-basic"] 900;
    mk_scan "port_scan" ["-p"; "subdomain-enum"; "-m"; "portscan"] 1800 ].

(** The parsed command line, as far as the scheduler reads it. *)
Record cli_args : Type := mk_args {
  domains : list string;
  api : string;
  username : option string;
  password : option string
}.

Definition build_base_cmd (domain es_api : string)
    (username password : option string) : list string :=
  [ "sudo"; "/home/kali/.local/bin/bbot";
    "-t"; domain;
    "-om"; "http";
    "-c"; "modules.http.url=" ++ es_api;
    "modules.http.siem_friendly=true";
    "modules.http.username=user1";
    "modules.http.password=password";
    "--yes" ].

(** [subprocess.CompletedProcess], as far as it is read. *)
Record completed : Type := mk_completed {
  returncode : Z;
  stdout : string;
  stderr : string
}.

(** What [subprocess.run] does with a command. *)
Inductive run_outcome : Type :=
| Ran (proc : completed)
| NotFound                    (* raises FileNotFoundError *)
| Failed (e : string).        (* raises another Exception; [e] is [str(e)] *)

(** What [fut.result()] does in [on_done]. *)
Inductive fut_result : Type :=
| Returned (ok : bool) (duration : Q) (proc : completed)
| RaisedFileNotFound
| RaisedException (e : string).

(** [run_scan], with its two clock readings as inputs. *)
Definition run_scan (start_ end_ : Q) (o : run_outcome) : fut_result :=
  match o with
  | Ran proc => Returned (returncode proc =? 0)%Z (end_ - start_) proc
  | NotFound => RaisedFileNotFound
  | Failed e => RaisedException e
  end.

(** [log(msg)] prints one line; [ts] is the formatted [datetime.now()]. *)
Definition log (ts msg : string) : string := "[" ++ ts ++ "] " ++ msg.

(** ** Scheduler state *)

(** Everything the scheduler thread and the pool threads share. *)
Record state : Type := mk_state {
  schedule : list task;
  stop_event : bool;
  (** the calls of [executor.submit], oldest first: task reference, command *)
  submitted : list (nat * list string);
  (** the futures that carry an [on_done] which has not run yet *)
  callbacks : list nat;
  (** the messages given to [log], oldest first *)
  log_lines : list string;
  (** the chunks written to [sys.stdout] and to [sys.stderr], oldest first *)
  out_stream : list string;
  err_stream : list string
}.

Definition set_schedule (f : list task -> list task) (st : state) : state :=
  mk_state (f (schedule st)) (stop_event st) (submitted st) (callbacks st)
           (log_lines st) (out_stream st) (err_stream st).

Definition set_stop (st : state) : state :=
  mk_state (schedule st) true (submitted st) (callbacks st)
           (log_lines st) (out_stream st) (err_stream st).

Definition do_log (msg : string) (st : state) : state :=
  mk_state (schedule st) (stop_event st) (submitted st) (callbacks st)
           (log_lines st ++ [msg])%list (out_stream st) (err_stream st).

Definition do_submit (i : nat) (cmd : list string) (st : state) : state :=
  mk_state (schedule st) (stop_event st) (submitted st ++ [(i, cmd)])%list
           (callbacks st) (log_lines st) (out_stream st) (err_stream st).

Definition set_callbacks (f : list nat -> list nat) (st : state) : state :=
  mk_state (schedule st) (stop_event st) (submitted st) (f (callbacks st))
           (log_lines st) (out_stream st) (err_stream st).

(** [if text: stream.write(text)] *)
Definition write_if_nonempty (text : string) (stream : list string) : list string :=
  match text with
  | EmptyString => stream
  | _ => (stream ++ [text])%list
  end.

Definition do_passthrough (proc : completed) (st : state) : state :=
  mk_state (schedule st) (stop_event st) (submitted st) (callbacks st)
           (log_lines st)
           (write_if_nonempty (stdout proc) (out_stream st))
           (write_if_nonempty (stderr proc) (err_stream st)).

(** [s["running"] = True] *)
Definition set_running (b : bool) (s : task) : task :=
  mk_task (domain s) (name s) (args s) (period s) (next s) b.

(** [s["next"] = v] *)
Definition set_next (v : stamp) (s : task) : task :=
  mk_task (domain s) (name s) (args s) (period s) v (running s).

(** The identity used in the log lines: [{s['domain']}:{s['name']}]. *)
Definition ident (s : task) : string := domain s ++ ":" ++ name s.

(** ** The schedule built by [main] *)

Definition build_schedule (doms : list string) (now : Q) : list task :=
  flat_map
    (fun d => map (fun s => mk_task d (scan_name s) (scan_args s) (scan_period s)
                                   (Finite now) false) SCANS)
    doms.

Definition initial_state (a : cli_args) (now : Q) : state :=
  mk_state (build_schedule (domains a) now) false [] []
    ["Starting multi-domain multi-period scheduler (parallel). Domains: "
       ++ join ", " (domains a) ++ ". Press Ctrl-C to stop."]
    [] [].

(** ** [launch_scan] and [on_done] *)

Section Scheduler.

Variable a : cli_args.

(** The command of [launch_scan]: base command followed by the scan's own arguments. *)
Definition launch_cmd (s : task) : list string :=
  (build_base_cmd (domain s) (api a) (username a) (password a) ++ args s)%list.

(** The statements of [launch_scan], in source order.  [ls_submit] is the
    state in which [executor.submit] has returned; [ls_reserve] is the pair
    of assignments that follows it; [ls_attach] is [add_done_callback]. *)
Definition ls_log (i : nat) (st : state) : state :=
  match schedule st !! i with
  | Some s => do_log ("Running " ++ ident s ++ ": " ++ Shlex.join (launch_cmd s)) st
  | None => st
  end.

Definition ls_submit (i : nat) (st : state) : state :=
  match schedule st !! i with
  | Some s => do_submit i (launch_cmd s) st
  | None => st
  end.

Definition ls_reserve (i : nat) (st : state) : state :=
  set_schedule (alter (set_next Infinite) i)
    (set_schedule (alter (set_running true) i) st).

Definition ls_attach (i : nat) (st : state) : state :=
  set_callbacks (fun l => l ++ [i])%list st.

Definition launch_scan (i : nat) (st : state) : state :=
  ls_attach i (ls_reserve i (ls_submit i (ls_log i st))).

(** The rescheduling assignments shared by the two non-fatal paths;
    [t] is the reading of [time.time()] taken there. *)
Definition reschedule (i : nat) (t : Q) (st : state) : state :=
  set_schedule
    (alter (set_running false) i)
    (set_schedule
       (alter (fun s => set_next (Finite (t + inject_Z (period s))) s) i) st).

(** The callback attached to the future of task [i]. *)
Definition on_done (i : nat) (r : fut_result) (t : Q) (st : state) : state :=
  match schedule st !! i with
  | None => st
  | Some s =>
      match r with
      | RaisedFileNotFound =>
          set_stop (do_log "ERROR: 'bbot' not found on PATH. Exiting." st)
      | RaisedException e =>
          reschedule i t (do_log ("ERROR running " ++ ident s ++ ": " ++ e) st)
      | Returned ok duration proc =>
          let st1 := do_passthrough proc st in
          let st2 :=
            if negb ok
            then do_log (ident s ++ " FAILED in " ++ format_1f duration
                           ++ "s (returncode " ++ str_of_Z (returncode proc) ++ ")") st1
            else do_log (ident s ++ " completed in " ++ format_1f duration ++ "s") st1 in
          reschedule i t st2
      end
  end.

(** The pool runs the callback of a future once: it leaves [callbacks]. *)
Fixpoint remove_first (i : nat) (l : list nat) : list nat :=
  match l with
  | [] => []
  | j :: rest => if Nat.eqb i j then rest else j :: remove_first i rest
  end.

Definition complete (i : nat) (r : fut_result) (t : Q) (st : state) : state :=
  on_done i r t (set_callbacks (remove_first i) st).

(** ** One tick of the loop in [main] *)

(** The condition of the comprehension that builds [due]. *)
Definition is_due (now : Q) (s : task) : bool :=
  negb (running s) && stamp_leb (next s) (Finite now).

(** The references selected by the comprehension, in schedule order;
    [k] is the reference of the head of [sched]. *)
Fixpoint due_from (k : nat) (now : Q) (sched : list task) : list nat :=
  match sched with
  | [] => []
  | s :: rest =>
      if is_due now s then k :: due_from (S k) now rest
      else due_from (S k) now rest
  end.

Definition due (now : Q) (sched : list task) : list nat := due_from 0 now sched.

(** The sort key [lambda x: x["next"]], read through the reference. *)
Definition key_of (sched : list task) (i : nat) : stamp :=
  match sched !! i with
  | Some s => next s
  | None => Infinite
  end.

(** [sorted(l, key=key)].  Python's sort is stable and compares keys with
    [<] only; a stable sort has one possible result, computed here by
    insertion from the right, an item going in front of the first item
    whose key is not smaller than its own. *)
Fixpoint insert_by (key : nat -> stamp) (x : nat) (l : list nat) : list nat :=
  match l with
  | [] => [x]
  | y :: rest =>
      if stamp_ltb (key y) (key x) then y :: insert_by key x rest
      else x :: y :: rest
  end.

Definition sorted (key : nat -> stamp) (l : list nat) : list nat :=
  fold_right (insert_by key) [] l.

(** The order in which the [for] loop calls [launch_scan]. *)
Definition dispatch_order (now : Q) (sched : list task) : list nat :=
  sorted (key_of sched) (due now sched).

(** Lines 145-149: select, sort, launch. *)
Definition dispatch (now : Q) (st : state) : state :=
  fold_left (fun st' i => launch_scan i st')
            (dispatch_order now (schedule st)) st.

(** [next_times], read after the launches. *)
Definition next_times (sched : list task) : list stamp :=
  map next (List.filter (fun s => negb (running s)) sched).

Definition floor_interval : Q := 2 # 10.
Definition idle_delay : Q := 5 # 10.

(** Lines 151-155: the value of [sleep_for]. *)
Definition sleep_for (now : Q) (sched : list task) : stamp :=
  match next_times sched with
  | [] => Finite idle_delay
  | x :: xs => py_max (stamp_sub (py_min x xs) now) (Finite floor_interval)
  end.

(** ** Interleavings *)

(** The scheduler thread and the pool threads take turns on the shared
    state.  The scheduler thread makes the launches of a tick, entered only
    when the stop flag is clear; a pool thread runs the callback of a future
    that still carries one.  Callbacks may also run between two launches of
    one tick: [step_launch] is a single launch of a task that is not running,
    as every task selected at the head of a tick still is when its turn
    comes, no callback being attached to it. *)
Inductive step : state -> state -> Prop :=
| step_tick (now : Q) (st : state) :
    stop_event st = false -> step st (dispatch now st)
| step_launch (i : nat) (s : task) (st : state) :
    schedule st !! i = Some s -> running s = false ->
    step st (launch_scan i st)
| step_done (i : nat) (r : fut_result) (t : Q) (st : state) :
    In i (callbacks st) -> step st (complete i r t st).

Inductive reachable (t0 : Q) : state -> Prop :=
| reach_init : reachable t0 (initial_state a t0)
| reach_step (st st' : state) :
    reachable t0 st -> step st st' -> reachable t0 st'.

(** ** The loop with its sleep *)

(** What happens around the scheduler thread while it sleeps once: the
    callbacks that pool threads run, in order, each with its own clock
    reading, and possibly a Ctrl-C at some instant. *)
Record interval : Type := mk_interval {
  completions : list (nat * fut_result * Q);
  interrupt : option Q
}.

Definition run_callback (st : state) (c : nat * fut_result * Q) : state :=
  let '(i, r, t) := c in
  if existsb (Nat.eqb i) (callbacks st) then complete i r t st else st.

Definition run_callbacks (l : list (nat * fut_result * Q)) (st : state) : state :=
  fold_left run_callback l st.

Inductive exit_reason : Type :=
| StopSeen          (* [stop_event.is_set()] was true at the loop head *)
| Interrupted       (* KeyboardInterrupt *)
| SleepRaised       (* [time.sleep(math.inf)] raises OverflowError *)
| StillLooping.     (* the description of the surroundings ran out *)

Record run : Type := mk_run {
  reason : exit_reason;
  exit_at : Q;
  final : state
}.

(** The [while] loop.  [clock] is the reading of [time.time()] at the loop
    head; the launches are taken to be instantaneous and [time.sleep(d)]
    to last [d] seconds, unless a KeyboardInterrupt ends it. *)
Fixpoint main_loop (clock : Q) (env : list interval) (st : state) : run :=
  if stop_event st then mk_run StopSeen clock st
  else
    match env with
    | [] => mk_run StillLooping clock st
    | iv :: env' =>
        let st1 := dispatch clock st in
        match sleep_for clock (schedule st1) with
        | Infinite => mk_run SleepRaised clock st1
        | Finite d =>
            let st2 := run_callbacks (completions iv) st1 in
            match interrupt iv with
            | Some k => mk_run Interrupted k (do_log "Exiting." st2)
            | None => main_loop (clock + d) env' st2
            end
        end
    end.

End Scheduler.

(** ** Predicates used in the statements *)

Definition is_finite (v : stamp) : bool :=
  match v with Finite _ => true | Infinite => false end.

(** Exactly one of: the task is running, [next] holds a clock reading. *)
Definition exactly_one (s : task) : bool := xorb (running s) (is_finite (next s)).

(** Task [i] is reserved: marked running, with [next] at [math.inf]. *)
Definition reserved (i : nat) (st : state) : Prop :=
  exists s, schedule st !! i = Some s /\ running s = true /\ next s = Infinite.

(** The invariant of the shared state. *)
Record consistent (st : state) : Prop := mk_consistent {
  tasks_ok : Forall (fun s => exactly_one s = true) (schedule st);
  in_flight_running :
    forall i, In i (callbacks st) ->
      exists s, schedule st !! i = Some s /\ running s = true;
  callbacks_nodup : List.NoDup (callbacks st)
}.

(** Smaller key first, smaller reference first among equal keys. *)
Definition before_by (key : nat -> stamp) (i j : nat) : Prop :=
  stamp_lt (key i) (key j) \/ (stamp_eq (key i) (key j) /\ (i < j)%nat).

(** The launch order of a tick: older [next] first, schedule order among equals. *)
Definition dispatched_before (sched : list task) : nat -> nat -> Prop :=
  before_by (key_of sched).

(** One reading of "reservation happens before submission returns": in the
    state in which [executor.submit] has returned for a task selected by the
    tick, that task is reserved. *)
Definition reserved_when_submit_returns (a : cli_args) : Prop :=
  forall t0 st now i,
    reachable a t0 st ->
    In i (dispatch_order now (schedule st)) ->
    reserved i (ls_submit a i (ls_log a i st)).

(** One reading of "the sleep is interruptible by the stop signal": when a
    callback sets the stop flag at an instant [t] inside the sleep of a tick,
    the loop is left before that sleep is over. *)
Definition stop_cuts_sleep (a : cli_args) : Prop :=
  forall clock iv env st d i t,
    stop_event st = false ->
    sleep_for clock (schedule (dispatch a clock st)) = Finite d ->
    interrupt iv = None ->
    In (i, RaisedFileNotFound, t) (completions iv) ->
    stop_event (run_callbacks (completions iv) (dispatch a clock st)) = true ->
    (clock <= t)%Q -> (t < clock + d)%Q ->
    (exit_at (main_loop a clock (iv :: env) st) < clock + d)%Q.

(** ** Reading the domains file *)

(** The text of the file is taken decoded, its characters being code points
    below 256.  [str.isspace] on such a character. *)
Definition is_space (c : ascii) : bool :=
  let n := nat_of_ascii c in
  ((9 <=? n)%nat && (n <=? 13)%nat) || ((28 <=? n)%nat && (n <=? 32)%nat)
  || Nat.eqb n 133 || Nat.eqb n 160.

Definition LF : ascii := ascii_of_nat 10.
Definition CR : ascii := ascii_of_nat 13.

(** Text mode with the default [newline=None]: CR LF and a lone CR are read
    as LF. *)
Fixpoint universal_newlines (s : string) : string :=
  match s with
  | EmptyString => EmptyString
  | String c r =>
      if Ascii.eqb c CR then
        match r with
        | String c' r' =>
            if Ascii.eqb c' LF then String LF (universal_newlines r')
            else String LF (universal_newlines r)
        | EmptyString => String LF EmptyString
        end
      else String c (universal_newlines r)
  end.

(** [for line in f]: the lines of the text, each with its LF when it has one. *)
Fixpoint lines_of (s : string) : list string :=
  match s with
  | EmptyString => []
  | String c r =>
      if Ascii.eqb c LF then String c EmptyString :: lines_of r
      else match lines_of r with
           | [] => [String c EmptyString]
           | l :: ls => String c l :: ls
           end
  end.

(** [str.lstrip()], [str.rstrip()] and [str.strip()] without argument. *)
Fixpoint lstrip (s : string) : string :=
  match s with
  | EmptyString => EmptyString
  | String c r => if is_space c then lstrip r else s
  end.

Fixpoint rstrip (s : string) : string :=
  match s with
  | EmptyString => EmptyString
  | String c r =>
      match rstrip r with
      | EmptyString => if is_space c then EmptyString else String c EmptyString
      | r' => String c r'
      end
  end.

Definition strip (s : string) : string := rstrip (lstrip s).

(** [not line or line.startswith("#")] *)
Definition skipped (line : string) : bool :=
  match line with
  | EmptyString => true
  | _ => String.prefix "#" line
  end.

(** The body of the [for] loop of [load_domains_from_file], over the lines. *)
Fixpoint load_lines (lines : list string) : list string :=
  match lines with
  | [] => []
  | line :: rest =>
      let line' := strip line in
      if skipped line' then load_lines rest else line' :: load_lines rest
  end.

(** [load_domains_from_file], as a function of the text of the file. *)
Definition load_domains_from_file (text : string) : list string :=
  load_lines (lines_of (universal_newlines text)).

(** A file with one domain per line. *)
Definition write_domains (doms : list string) : string :=
  fold_right (fun d text => d ++ String LF text) EmptyString doms.

(** A string without CR and LF. *)
Fixpoint one_line (s : string) : bool :=
  match s with
  | EmptyString => true
  | String c r => negb (Ascii.eqb c LF) && negb (Ascii.eqb c CR) && one_line r
  end.

(** What [load_domains_from_file] returns as it is: a non-empty single line
    that neither starts nor ends with white space and is not a comment. *)
Definition domain_line (d : string) : Prop :=
  d <> EmptyString /\ lstrip d = d /\ rstrip d = d
  /\ String.prefix "#" d = false /\ one_line d = true.

(** A string without CR. *)
Fixpoint no_cr (s : string) : bool :=
  match s with
  | EmptyString => true
  | String c r => negb (Ascii.eqb c CR) && no_cr r
  end.

(** A string in which LF occurs at most as the last character. *)
Fixpoint lf_last (s : string) : bool :=
  match s with
  | EmptyString => true
  | String c r =>
      match r with
      | EmptyString => true
      | _ => negb (Ascii.eqb c LF) && lf_last r
      end
  end.

(** ** The start of [main] *)

(** The namespace returned by [parse_args]. *)
Record namespace : Type := mk_namespace {
  arg_domains_file : option string;
  arg_domains : list string;
  arg_api : string;
  arg_username : option string;
  arg_password : option string;
  arg_max_workers : Z
}.

(** What a path leads to: nothing that [os.path.isfile] accepts, a file that
    [open] or the decoding rejects, or a text. *)
Inductive entry : Type :=
| Missing
| Unreadable
| Text (content : string).

Inductive startup : Type :=
| SysExit (code : Z) (logged : string)   (* [log] then [sys.exit] *)
| Uncaught                                (* an exception leaves [main] *)
| Started (a : cli_args) (max_workers : Z) (st : state).

(** Lines 93-97: the size of the thread pool. *)
Definition pool_size (requested : Z) (total_tasks : nat) : Z :=
  if (negb (requested =? 0) && (0 <? requested))%Z then requested
  else Z.min 32 (Z.max 1 (Z.of_nat total_tasks)).

(** Lines 66-72: the domains, from the file when [args.domains_file] is a
    non-empty string, from the command line otherwise. *)
Definition resolve_domains (files : string -> entry) (ns : namespace)
  : startup + list string :=
  match arg_domains_file ns with
  | Some (String c r) =>
      match files (String c r) with
      | Missing =>
          inl (SysExit 2 ("ERROR: domains file not found: " ++ String c r))
      | Unreadable => inl Uncaught
      | Text content => inr (load_domains_from_file content)
      end
  | _ => inr (arg_domains ns)
  end.

(** Lines 66-100 and 142: [main] from the return of [parse_args] up to the
    loop; [now] is the clock reading stored in the schedule.  What [argparse]
    does before, its own exits included, is not part of it. *)
Definition main_startup (files : string -> entry) (ns : namespace) (now : Q)
  : startup :=
  match resolve_domains files ns with
  | inl stop => stop
  | inr [] => SysExit 2 "ERROR: no domains provided."
  | inr doms =>
      let a := mk_args doms (arg_api ns) (arg_username ns) (arg_password ns) in
      let st := initial_state a now in
      Started a (pool_size (arg_max_workers ns) (length (schedule st))) st
  end.

(** ** Runs of the scheduler *)

(** Any number of steps. *)
Inductive steps (a : cli_args) : state -> state -> Prop :=
| steps_refl (st : state) : steps a st st
| steps_step (st st' st'' : state) :
    steps a st st' -> step a st' st'' -> steps a st st''.

(** The fields of a task that are written once, when the schedule is built. *)
Definition static (s : task) : string * string * list string * Z :=
  (domain s, name s, args s, period s).

(** The commands a state has on record are those of its tasks. *)
Definition commands_match (a : cli_args) (st : state) : Prop :=
  forall i cmd, In (i, cmd) (submitted st) ->
    exists s, schedule st !! i = Some s /\ cmd = launch_cmd a s.

(** ** The assignments one by one *)

(** The part of [on_done] that comes before the two rescheduling
    assignments, for the two outcomes that reschedule. *)
Definition report (i : nat) (r : fut_result) (st : state) : state :=
  match schedule st !! i with
  | None => st
  | Some s =>
      match r with
      | RaisedFileNotFound => st
      | RaisedException e =>
          do_log ("ERROR running " ++ ident s ++ ": " ++ e) st
      | Returned ok duration proc =>
          let st1 := do_passthrough proc st in
          if negb ok
          then do_log (ident s ++ " FAILED in " ++ format_1f duration
                         ++ "s (returncode " ++ str_of_Z (returncode proc) ++ ")") st1
          else do_log (ident s ++ " completed in " ++ format_1f duration ++ "s") st1
      end
  end.

(** Where the scheduler thread stands inside [launch_scan]. *)
Inductive launch_pc : Type :=
| Submitted        (* line 106 is done *)
| MarkedRunning    (* line 138 is done *)
| MarkedNever.     (* line 139 is done *)

(** The shared state together with the places of the threads that are
    inside [launch_scan] or [on_done]: the task the scheduler thread is
    launching, the tasks whose callback has reported and not yet assigned
    [next], and those whose callback has assigned [next] and not yet
    cleared [running]. *)
Record threads : Type := mk_threads {
  shared : state;
  launching : option (nat * launch_pc);
  reported : list nat;
  next_assigned : list nat
}.

Definition assign_running (b : bool) (i : nat) (st : state) : state :=
  set_schedule (alter (set_running b) i) st.

Definition assign_next_never (i : nat) (st : state) : state :=
  set_schedule (alter (set_next Infinite) i) st.

Definition assign_next_period (i : nat) (t : Q) (st : state) : state :=
  set_schedule (alter (fun s => set_next (Finite (t + inject_Z (period s))) s) i) st.

(** One statement of one thread at a time.  The scheduler thread starts a
    launch only for a task that is not running, as the tasks selected at the
    head of a tick are when their turn comes. *)
Inductive fine_step (a : cli_args) : threads -> threads -> Prop :=
| fine_submit (i : nat) (s : task) (th : threads) :
    launching th = None ->
    schedule (shared th) !! i = Some s -> running s = false ->
    fine_step a th
      (mk_threads (ls_submit a i (ls_log a i (shared th)))
                  (Some (i, Submitted)) (reported th) (next_assigned th))
| fine_mark_running (i : nat) (th : threads) :
    launching th = Some (i, Submitted) ->
    fine_step a th
      (mk_threads (assign_running true i (shared th))
                  (Some (i, MarkedRunning)) (reported th) (next_assigned th))
| fine_mark_never (i : nat) (th : threads) :
    launching th = Some (i, MarkedRunning) ->
    fine_step a th
      (mk_threads (assign_next_never i (shared th))
                  (Some (i, MarkedNever)) (reported th) (next_assigned th))
| fine_attach (i : nat) (th : threads) :
    launching th = Some (i, MarkedNever) ->
    fine_step a th
      (mk_threads (ls_attach i (shared th)) None (reported th) (next_assigned th))
| fine_not_found (i : nat) (t : Q) (th : threads) :
    In i (callbacks (shared th)) ->
    fine_step a th
      (mk_threads (complete i RaisedFileNotFound t (shared th))
                  (launching th) (reported th) (next_assigned th))
| fine_report (i : nat) (r : fut_result) (th : threads) :
    In i (callbacks (shared th)) -> r <> RaisedFileNotFound ->
    fine_step a th
      (mk_threads (report i r (set_callbacks (remove_first i) (shared th)))
                  (launching th) (i :: reported th) (next_assigned th))
| fine_assign_next (i : nat) (t : Q) (th : threads) :
    In i (reported th) ->
    fine_step a th
      (mk_threads (assign_next_period i t (shared th))
                  (launching th) (remove_first i (reported th))
                  (i :: next_assigned th))
| fine_clear_running (i : nat) (th : threads) :
    In i (next_assigned th) ->
    fine_step a th
      (mk_threads (assign_running false i (shared th))
                  (launching th) (reported th)
                  (remove_first i (next_assigned th))).

Inductive fine_reachable (a : cli_args) (t0 : Q) : threads -> Prop :=
| fine_init : fine_reachable a t0 (mk_threads (initial_state a t0) None [] [])
| fine_next (th th' : threads) :
    fine_reachable a t0 th -> fine_step a th th' -> fine_reachable a t0 th'.

(** Task [i] is between the two assignments of its reservation or of its
    rescheduling. *)
Definition between_assignments (th : threads) (i : nat) : Prop :=
  launching th = Some (i, MarkedRunning) \/ In i (next_assigned th).

(** One reading of "exactly one of running, real timestamp, at every
    reachable state". *)
Definition exactly_one_always (a : cli_args) : Prop :=
  forall t0 th i s,
    fine_reachable a t0 th ->
    schedule (shared th) !! i = Some s ->
    exactly_one s = true.

(** The tasks with a callback attached or running. *)
Definition busy (th : threads) : list nat :=
  (callbacks (shared th) ++ reported th ++ next_assigned th)%list.

(** What holds of the threads and the schedule after every statement. *)
Record fine_consistent (th : threads) : Prop := mk_fine_consistent {
  idle_has_time :
    forall i s, schedule (shared th) !! i = Some s ->
      running s = false -> is_finite (next s) = true;
  running_is_never :
    forall i s, schedule (shared th) !! i = Some s ->
      running s = true -> next s = Infinite \/ between_assignments th i;
  busy_running :
    forall i, In i (busy th) ->
      exists s, schedule (shared th) !! i = Some s /\ running s = true;
  busy_nodup : List.NoDup (busy th);
  next_assigned_has_time :
    forall i, In i (next_assigned th) ->
      exists s, schedule (shared th) !! i = Some s /\ is_finite (next s) = true;
  launching_place :
    forall i pc, launching th = Some (i, pc) ->
      ~ In i (busy th)
      /\ exists s, schedule (shared th) !! i = Some s
         /\ match pc with
            | Submitted => running s = false
            | MarkedRunning => running s = true /\ is_finite (next s) = true
            | MarkedNever => running s = true /\ next s = Infinite
            end
}.

(** ** A tick with callbacks in between *)

(** The launches of a tick in their order; after the launch of each task
    the callbacks of [cbs] that pool threads run before the next launch. *)
Fixpoint launch_interleaved (a : cli_args) (l : list nat)
    (cbs : list (list (nat * fut_result * Q))) (st : state) : state :=
  match l with
  | [] => st
  | i :: rest =>
      launch_interleaved a rest (tl cbs)
        (run_callbacks (hd [] cbs) (launch_scan a i st))
  end.

(** Lines 145-149, with the callbacks that run during the [for] loop. *)
Definition tick (a : cli_args) (now : Q)
    (cbs : list (list (nat * fut_result * Q))) (st : state) : state :=
  launch_interleaved a (dispatch_order now (schedule st)) cbs st.

(** ** Concrete inputs *)

Definition demo_args : cli_args :=
  mk_args ["example.com"] "https://es:9200/bbot/_doc" None None.

(** One domain, after the first tick at clock reading 0: both tasks in flight. *)
Definition demo_launched : state := dispatch demo_args 0 (initial_state demo_args 0).

(** The same domain later on: [web_probe] has completed at 0.1 and waits for
    its next period, [port_scan] is still in flight. *)
Definition demo_waiting : state :=
  complete 0 (run_scan 0 (1 # 10) (Ran (mk_completed 0 "found 3 hosts" ""))) (1 # 10)
           demo_launched.

(** A run of [port_scan] that exits with status 1 after 1.5 seconds. *)
Definition demo_failed_run : fut_result :=
  run_scan 0 (3 # 2) (Ran (mk_completed 1 "" "scan aborted")).

(** A domains file with comments, blank lines, CR LF line ends, an indented
    comment and a line that carries a trailing remark. *)
Definition demo_file : string :=
  "# targets" ++ String CR (String LF "")
  ++ "example.com" ++ String LF ""
  ++ String LF ""
  ++ "   # staging" ++ String LF ""
  ++ "  test.example.org  " ++ String CR ""
  ++ "example.net # prod".

Definition demo_files (path : string) : entry :=
  if String.eqb path "domains.txt" then Text demo_file else Missing.

Definition demo_namespace : namespace :=
  mk_namespace (Some "domains.txt") [] "https://es:9200/bbot/_doc" None None 0.

(** Two domains later in a run: the web probe of the second domain has
    been due for longest, the two tasks of the first domain have been due
    since the same instant, the port scan of the second became due last. *)
Definition demo_mixed : state :=
  mk_state
    [ mk_task "example.com" "web_probe" ["-p"; "web-basic"] 900 (Finite 1500) false;
      mk_task "example.com" "port_scan" ["-p"; "subdomain-enum"; "-m"; "portscan"]
              1800 (Finite 1500) false;
      mk_task "example.org" "web_probe" ["-p"; "web-basic"] 900 (Finite 1000) false;
      mk_task "example.org" "port_scan" ["-p"; "subdomain-enum"; "-m"; "portscan"]
              1800 (Finite 1900) false ]
    false [] [] [] [] [].

(** The first launch of the first tick, stopped after line 138. *)
Definition demo_half_reserved : threads :=
  mk_threads
    (assign_running true 0
       (ls_submit demo_args 0 (ls_log demo_args 0 (initial_state demo_args 0))))
    (Some (0%nat, MarkedRunning)) [] [].

(** * Properties *)

(** ** The order on timestamps *)

Lemma stamp_ltb_leb a b : stamp_ltb a b = negb (stamp_leb b a).
Proof. destruct a, b; reflexivity. Qed.

Lemma stamp_le_refl a : stamp_le a a.
Proof.
  destruct a; unfold stamp_le; simpl; [|reflexivity].
  apply Qle_bool_iff, Qle_refl.
Qed.

Lemma stamp_le_trans a b c : stamp_le a b -> stamp_le b c -> stamp_le a c.
Proof.
  unfold stamp_le; destruct a, b, c; simpl; try congruence; try reflexivity.
  rewrite !Qle_bool_iff. apply Qle_trans.
Qed.

Lemma stamp_le_total a b : stamp_le a b \/ stamp_le b a.
Proof.
  unfold stamp_le; destruct a as [x|], b as [y|]; simpl; auto.
  rewrite !Qle_bool_iff. destruct (Qlt_le_dec x y) as [H|H]; [left|right]; auto.
  apply Qlt_le_weak, H.
Qed.

Lemma stamp_lt_le a b : stamp_lt a b -> stamp_le a b.
Proof.
  unfold stamp_lt. rewrite stamp_ltb_leb. intros H.
  destruct (stamp_le_total a b) as [|H']; [assumption|].
  unfold stamp_le in H'. rewrite H' in H. discriminate.
Qed.

Lemma stamp_not_lt a b : stamp_ltb a b = false -> stamp_le b a.
Proof.
  rewrite stamp_ltb_leb. unfold stamp_le. now destruct (stamp_leb b a).
Qed.

Lemma stamp_lt_irrefl a b : stamp_lt a b -> stamp_le b a -> False.
Proof.
  unfold stamp_lt, stamp_le. rewrite stamp_ltb_leb. intros H1 H2.
  rewrite H2 in H1. discriminate.
Qed.

(** ** Projections of the state updates *)

Section Facts.

Variable a : cli_args.

Lemma schedule_ls_log i st : schedule (ls_log a i st) = schedule st.
Proof. unfold ls_log. now destruct (schedule st !! i). Qed.

Lemma schedule_ls_submit i st : schedule (ls_submit a i st) = schedule st.
Proof. unfold ls_submit. now destruct (schedule st !! i). Qed.

Lemma callbacks_ls_log i st : callbacks (ls_log a i st) = callbacks st.
Proof. unfold ls_log. now destruct (schedule st !! i). Qed.

Lemma callbacks_ls_submit i st : callbacks (ls_submit a i st) = callbacks st.
Proof. unfold ls_submit. now destruct (schedule st !! i). Qed.

Lemma stop_ls_log i st : stop_event (ls_log a i st) = stop_event st.
Proof. unfold ls_log. now destruct (schedule st !! i). Qed.

Lemma stop_ls_submit i st : stop_event (ls_submit a i st) = stop_event st.
Proof. unfold ls_submit. now destruct (schedule st !! i). Qed.

Lemma schedule_launch_scan i st :
  schedule (launch_scan a i st)
  = alter (set_next Infinite) i (alter (set_running true) i (schedule st)).
Proof.
  unfold launch_scan, ls_attach, ls_reserve. simpl.
  now rewrite schedule_ls_submit, schedule_ls_log.
Qed.

Lemma callbacks_launch_scan i st :
  callbacks (launch_scan a i st) = (callbacks st ++ [i])%list.
Proof.
  unfold launch_scan, ls_attach, ls_reserve. simpl.
  now rewrite callbacks_ls_submit, callbacks_ls_log.
Qed.

Lemma stop_launch_scan i st : stop_event (launch_scan a i st) = stop_event st.
Proof.
  unfold launch_scan, ls_attach, ls_reserve. simpl.
  now rewrite stop_ls_submit, stop_ls_log.
Qed.

Lemma lookup_launch_scan_eq i st s :
  schedule st !! i = Some s ->
  schedule (launch_scan a i st) !! i
  = Some (mk_task (domain s) (name s) (args s) (period s) Infinite true).
Proof.
  intros H. rewrite schedule_launch_scan, !list_lookup_alter_eq, H. reflexivity.
Qed.

Lemma lookup_launch_scan_ne i j st :
  i <> j -> schedule (launch_scan a i st) !! j = schedule st !! j.
Proof.
  intros H. now rewrite schedule_launch_scan, !list_lookup_alter_ne.
Qed.

Lemma lookup_reschedule_eq i t st s :
  schedule st !! i = Some s ->
  schedule (reschedule i t st) !! i
  = Some (mk_task (domain s) (name s) (args s) (period s)
                  (Finite (t + inject_Z (period s))) false).
Proof.
  intros H. unfold reschedule. simpl.
  rewrite !list_lookup_alter_eq, H. reflexivity.
Qed.

Lemma lookup_reschedule_ne i j t st :
  i <> j -> schedule (reschedule i t st) !! j = schedule st !! j.
Proof.
  intros H. unfold reschedule. simpl. now rewrite !list_lookup_alter_ne.
Qed.

(** What [on_done] does to the schedule, by outcome. *)
Lemma schedule_on_done i r t st :
  schedule (on_done i r t st)
  = match schedule st !! i, r with
    | Some _, RaisedFileNotFound | None, _ => schedule st
    | Some _, _ => schedule (reschedule i t st)
    end.
Proof.
  unfold on_done. destruct (schedule st !! i); [|reflexivity].
  destruct r as [ok d proc| |e]; try reflexivity.
  destruct (negb ok); reflexivity.
Qed.

Lemma callbacks_on_done i r t st : callbacks (on_done i r t st) = callbacks st.
Proof.
  unfold on_done. destruct (schedule st !! i); [|reflexivity].
  destruct r as [ok d proc| |e]; try reflexivity.
  destruct (negb ok); reflexivity.
Qed.

End Facts.

(** ** Selection and sorting *)

Lemma in_due_from now sched : forall k i,
  In i (due_from k now sched)
  <-> exists s, (k <= i)%nat /\ sched !! (i - k)%nat = Some s /\ is_due now s = true.
Proof.
  induction sched as [|s rest IH]; intros k i; simpl.
  - split; [tauto|]. intros (s & _ & H & _). discriminate.
  - assert (Hrest : In i (due_from (S k) now rest)
                    <-> exists s', (k < i)%nat /\ (s :: rest) !! (i - k)%nat = Some s'
                                   /\ is_due now s' = true).
    { rewrite IH. split; intros (s' & Hk & Hl & Hd); exists s'.
      - split; [lia|]. split; [|assumption].
        replace (i - k)%nat with (S (i - S k)) by lia. exact Hl.
      - split; [lia|]. split; [|assumption].
        replace (i - k)%nat with (S (i - S k)) in Hl by lia. exact Hl. }
    assert (Hhead : forall s', (k <= i)%nat -> (s :: rest) !! (i - k)%nat = Some s' ->
                               i = k /\ s' = s \/ (k < i)%nat).
    { intros s' Hk Hl. destruct (Nat.eq_dec i k) as [->|]; [|right; lia].
      left. rewrite Nat.sub_diag in Hl. simpl in Hl. now inversion Hl. }
    destruct (is_due now s) eqn:Hs; simpl; rewrite Hrest.
    + split.
      * intros [<-|(s' & Hk & Hl & Hd)].
        -- exists s. rewrite Nat.sub_diag. auto.
        -- exists s'. split; [lia|auto].
      * intros (s' & Hk & Hl & Hd).
        destruct (Hhead s' Hk Hl) as [[-> _]|Hlt]; [now left|right; eauto].
    + split.
      * intros (s' & Hk & Hl & Hd). exists s'. split; [lia|auto].
      * intros (s' & Hk & Hl & Hd).
        destruct (Hhead s' Hk Hl) as [[_ ->]|Hlt]; [congruence|eauto].
Qed.

Lemma in_due now sched i :
  In i (due now sched) <-> exists s, sched !! i = Some s /\ is_due now s = true.
Proof.
  unfold due. rewrite in_due_from. rewrite Nat.sub_0_r.
  split; intros (s & H); exists s; intuition lia.
Qed.

Lemma due_from_increasing now sched : forall k,
  StronglySorted lt (due_from k now sched).
Proof.
  induction sched as [|s rest IH]; intros k; simpl; [constructor|].
  destruct (is_due now s); [|apply IH].
  constructor; [apply IH|].
  apply List.Forall_forall. intros j Hj. apply in_due_from in Hj as (_ & Hk & _). lia.
Qed.

Lemma increasing_nodup (l : list nat) : StronglySorted lt l -> List.NoDup l.
Proof.
  induction 1 as [|x l _ IH Hx]; constructor; [|assumption].
  intros Hin. rewrite List.Forall_forall in Hx. specialize (Hx x Hin). lia.
Qed.

Section Sorting.

Variable key : nat -> stamp.

Lemma insert_by_perm x l : Permutation (insert_by key x l) (x :: l).
Proof.
  induction l as [|y rest IH]; simpl; [reflexivity|].
  destruct (stamp_ltb (key y) (key x)); [|reflexivity].
  rewrite IH. apply perm_swap.
Qed.

Lemma sorted_perm l : Permutation (sorted key l) l.
Proof.
  induction l as [|x rest IH]; simpl; [reflexivity|].
  fold (sorted key rest). rewrite insert_by_perm. now constructor.
Qed.

Lemma before_by_le i j : before_by key i j -> stamp_le (key i) (key j).
Proof. intros [H|[[H _] _]]; [now apply stamp_lt_le|assumption]. Qed.

Lemma before_by_intro i j :
  stamp_le (key i) (key j) -> (i < j)%nat -> before_by key i j.
Proof.
  intros Hle Hlt. destruct (stamp_ltb (key i) (key j)) eqn:E; [now left|].
  right. split; [|assumption]. split; [assumption|]. now apply stamp_not_lt.
Qed.

Lemma insert_by_sorted x l :
  StronglySorted (before_by key) l ->
  Forall (fun y => (x < y)%nat) l ->
  StronglySorted (before_by key) (insert_by key x l).
Proof.
  induction l as [|y rest IH]; intros Hs Hx; simpl.
  - repeat constructor.
  - apply StronglySorted_inv in Hs as [Hrest Hy].
    pose proof (Forall_inv Hx) as Hxy. pose proof (Forall_inv_tail Hx) as Hxr.
    destruct (stamp_ltb (key y) (key x)) eqn:E.
    + constructor; [now apply IH|].
      apply List.Forall_forall. intros z Hz.
      apply (Permutation_in _ (insert_by_perm x rest)) in Hz as [<-|Hz].
      * now left.
      * rewrite List.Forall_forall in Hy. now apply Hy.
    + apply stamp_not_lt in E.
      constructor; [now constructor|].
      apply List.Forall_forall. intros z Hz. apply before_by_intro.
      * destruct Hz as [<-|Hz]; [assumption|].
        apply stamp_le_trans with (key y); [assumption|].
        apply before_by_le. rewrite List.Forall_forall in Hy. now apply Hy.
      * rewrite List.Forall_forall in Hx. now apply Hx.
Qed.

(** The sort is stable: on references in increasing order, equal keys keep
    the order of the references. *)
Lemma sorted_stable l :
  StronglySorted lt l -> StronglySorted (before_by key) (sorted key l).
Proof.
  induction 1 as [|x rest Hrest IH Hx]; simpl; [constructor|].
  fold (sorted key rest). apply insert_by_sorted; [assumption|].
  apply List.Forall_forall. intros y Hy.
  apply (Permutation_in _ (sorted_perm rest)) in Hy.
  rewrite List.Forall_forall in Hx. now apply Hx.
Qed.

End Sorting.

(** ** The invariant of the shared state *)

Lemma remove_first_in i j l : In j (remove_first i l) -> In j l.
Proof.
  induction l as [|k rest IH]; simpl; [tauto|].
  destruct (Nat.eqb i k); simpl; intuition.
Qed.

Lemma remove_first_nodup i l : List.NoDup l -> List.NoDup (remove_first i l).
Proof.
  induction 1 as [|k rest Hk Hrest IH]; simpl; [constructor|].
  destruct (Nat.eqb i k); [assumption|].
  constructor; [|assumption]. intros H. now apply remove_first_in in H.
Qed.

Lemma remove_first_gone i l : List.NoDup l -> ~ In i (remove_first i l).
Proof.
  induction 1 as [|k rest Hk Hrest IH]; simpl; [tauto|].
  destruct (Nat.eqb_spec i k) as [->|Hne]; [assumption|].
  simpl. intros [H|H]; [congruence|tauto].
Qed.

Lemma exactly_one_reserve s :
  exactly_one ((set_next Infinite ∘ set_running true) s) = true.
Proof. reflexivity. Qed.

Lemma exactly_one_reschedule t s :
  exactly_one ((set_running false
                  ∘ (fun s' => set_next (Finite (t + inject_Z (period s'))) s')) s) = true.
Proof. reflexivity. Qed.

Lemma tasks_ok_build_schedule doms now :
  Forall (fun s => exactly_one s = true) (build_schedule doms now).
Proof.
  apply List.Forall_forall. intros s Hs. unfold build_schedule in Hs.
  apply in_flat_map in Hs as (d & _ & Hs).
  apply in_map_iff in Hs as (sc & <- & _). reflexivity.
Qed.

Section Invariant.

Variable a : cli_args.

Lemma consistent_init t0 : consistent (initial_state a t0).
Proof.
  constructor; simpl.
  - apply tasks_ok_build_schedule.
  - tauto.
  - constructor.
Qed.

Lemma not_running_not_in_flight st i s :
  consistent st -> schedule st !! i = Some s -> running s = false ->
  ~ In i (callbacks st).
Proof.
  intros Hc Hi Hr Hin.
  destruct (in_flight_running st Hc i Hin) as (s' & Hi' & Hr'). congruence.
Qed.

Lemma consistent_launch_scan st i s :
  consistent st -> schedule st !! i = Some s -> running s = false ->
  consistent (launch_scan a i st).
Proof.
  intros Hc Hi Hr.
  pose proof (not_running_not_in_flight st i s Hc Hi Hr) as Hfresh.
  constructor.
  - rewrite schedule_launch_scan, list_alter_alter_eq.
    apply Forall_alter; [apply (tasks_ok st Hc)|].
    intros x _ _. apply exactly_one_reserve.
  - intros j Hj. rewrite callbacks_launch_scan in Hj.
    apply in_app_or in Hj as [Hj|[<-|[]]].
    + assert (i <> j) by congruence.
      rewrite lookup_launch_scan_ne by assumption.
      now apply (in_flight_running st Hc).
    + rewrite (lookup_launch_scan_eq a i st s Hi). eexists. split; reflexivity.
  - rewrite callbacks_launch_scan. apply NoDup_ListNoDup, NoDup_app.
    split; [apply NoDup_ListNoDup, (callbacks_nodup st Hc)|].
    split; [|apply NoDup_singleton].
    intros j Hj Hj'. apply list_elem_of_In in Hj, Hj'.
    destruct Hj' as [<-|[]]. contradiction.
Qed.

Lemma consistent_launch_all : forall l st,
  List.NoDup l ->
  (forall i, In i l -> exists s, schedule st !! i = Some s /\ running s = false) ->
  consistent st ->
  consistent (fold_left (fun st' i => launch_scan a i st') l st).
Proof.
  induction l as [|i rest IH]; intros st Hnd Hl Hc; simpl; [assumption|].
  apply NoDup_cons_iff in Hnd as [Hi Hnd].
  destruct (Hl i (or_introl eq_refl)) as (s & Hs & Hr).
  apply IH; [assumption| |now apply consistent_launch_scan with s].
  intros j Hj. assert (i <> j) by congruence.
  rewrite lookup_launch_scan_ne by assumption. apply Hl. now right.
Qed.

Lemma dispatch_order_due now sched i :
  In i (dispatch_order now sched) <-> In i (due now sched).
Proof.
  unfold dispatch_order. split; apply Permutation_in;
    [|symmetry]; apply sorted_perm.
Qed.

Lemma dispatch_order_nodup now sched : List.NoDup (dispatch_order now sched).
Proof.
  unfold dispatch_order.
  apply (Permutation_NoDup (Permutation_sym (sorted_perm _ _))).
  apply increasing_nodup, due_from_increasing.
Qed.

Lemma consistent_dispatch now st : consistent st -> consistent (dispatch a now st).
Proof.
  intros Hc. unfold dispatch. apply consistent_launch_all; [| |assumption].
  - apply dispatch_order_nodup.
  - intros i Hi. apply dispatch_order_due, in_due in Hi as (s & Hs & Hd).
    exists s. split; [assumption|].
    unfold is_due in Hd. apply andb_prop in Hd as [Hd _].
    now destruct (running s).
Qed.

Lemma consistent_complete i r t st :
  consistent st -> In i (callbacks st) -> consistent (complete i r t st).
Proof.
  intros Hc Hi. unfold complete.
  set (st0 := set_callbacks (remove_first i) st).
  assert (Hsched : schedule st0 = schedule st) by reflexivity.
  assert (Hcb : callbacks st0 = remove_first i (callbacks st)) by reflexivity.
  constructor.
  - rewrite schedule_on_done, Hsched.
    assert (Hre : Forall (fun s => exactly_one s = true)
                         (schedule (reschedule i t st0))).
    { unfold reschedule. simpl. rewrite list_alter_alter_eq.
      apply Forall_alter; [apply (tasks_ok st Hc)|].
      intros x _ _. apply exactly_one_reschedule. }
    destruct (schedule st !! i); [|apply (tasks_ok st Hc)].
    destruct r; [assumption|apply (tasks_ok st Hc)|assumption].
  - intros j Hj. rewrite callbacks_on_done, Hcb in Hj.
    assert (Hne : i <> j).
    { intros ->. now apply (remove_first_gone j (callbacks st) (callbacks_nodup st Hc)). }
    apply remove_first_in in Hj.
    destruct (in_flight_running st Hc j Hj) as (s & Hs & Hr).
    exists s. split; [|assumption].
    rewrite schedule_on_done, Hsched.
    destruct (schedule st !! i); [|assumption].
    destruct r; try assumption; now rewrite lookup_reschedule_ne.
  - rewrite callbacks_on_done, Hcb.
    apply remove_first_nodup, (callbacks_nodup st Hc).
Qed.

Lemma consistent_step st st' : consistent st -> step a st st' -> consistent st'.
Proof.
  intros Hc Hstep. destruct Hstep as [now st _|i s st Hs Hr|i r t st Hi].
  - now apply consistent_dispatch.
  - now apply consistent_launch_scan with s.
  - now apply consistent_complete.
Qed.

Lemma reachable_consistent t0 st : reachable a t0 st -> consistent st.
Proof.
  induction 1 as [|st st' _ IH Hstep]; [apply consistent_init|].
  now apply consistent_step with st.
Qed.

(** A task in flight is reserved. *)
Lemma in_flight_reserved st i :
  consistent st -> In i (callbacks st) -> reserved i st.
Proof.
  intros Hc Hi. destruct (in_flight_running st Hc i Hi) as (s & Hs & Hr).
  exists s. split; [assumption|]. split; [assumption|].
  pose proof (Forall_lookup_1 _ _ _ _ (tasks_ok st Hc) Hs) as Hok.
  unfold exactly_one in Hok. rewrite Hr in Hok.
  now destruct (next s).
Qed.

Lemma reserved_not_due st i now : reserved i st -> ~ In i (due now (schedule st)).
Proof.
  intros (s & Hs & Hr & _) Hin. apply in_due in Hin as (s' & Hs' & Hd).
  assert (s' = s) by congruence. subst s'.
  unfold is_due in Hd. rewrite Hr in Hd. discriminate.
Qed.

End Invariant.

(** ** Concrete states *)

Lemma demo_launched_reachable : reachable demo_args 0 demo_launched.
Proof.
  unfold demo_launched.
  eapply reach_step; [apply reach_init|]. now apply step_tick.
Defined.

Lemma demo_waiting_reachable : reachable demo_args 0 demo_waiting.
Proof.
  unfold demo_waiting.
  eapply reach_step; [apply demo_launched_reachable|].
  apply step_done. vm_compute. auto.
Defined.

(** ** The command line of a scan *)

(** C10: the command built for a task does not depend on the [--username] and
    [--password] arguments: [build_base_cmd] returns the same sequence for
    every pair of values (or none), with the credentials of the HTTP module
    fixed to user1/password; hence neither does the command that
    [launch_scan] submits. *)
Theorem build_base_cmd_ignores_credentials :
  forall (d es : string) (u p u' p' : option string),
    build_base_cmd d es u p = build_base_cmd d es u' p'
    /\ In "modules.http.username=user1" (build_base_cmd d es u p)
    /\ In "modules.http.password=password" (build_base_cmd d es u p)
    /\ forall doms s,
         launch_cmd (mk_args doms es u p) s = launch_cmd (mk_args doms es u' p') s.
Proof.
  intros d es u p u' p'. split; [reflexivity|].
  split; [simpl; tauto|]. split; [simpl; tauto|]. reflexivity.
Qed.

(** ** The completion handler *)

(** C3: when the job of a task ran to completion, with any exit status, the
    handler stores in [next] exactly its own clock reading plus the period and
    clears [running]; the earlier value of [next] plays no part. *)
Theorem normal_completion_reschedules :
  forall (i : nat) (s : task) (st : state) (start_ end_ t : Q) (proc : completed),
    schedule st !! i = Some s ->
    schedule (on_done i (run_scan start_ end_ (Ran proc)) t st) !! i
    = Some (mk_task (domain s) (name s) (args s) (period s)
                    (Finite (t + inject_Z (period s))) false).
Proof.
  intros i s st start_ end_ t proc Hs.
  rewrite schedule_on_done, Hs. simpl.
  now apply lookup_reschedule_eq.
Qed.

Lemma normal_completion_reschedules_witness :
  schedule demo_launched !! 1%nat
  = Some (mk_task "example.com" "port_scan"
                  ["-p"; "subdomain-enum"; "-m"; "portscan"] 1800 Infinite true)
  /\ schedule (on_done 1 (run_scan 0 (3 # 2) (Ran (mk_completed 1 "" "scan aborted")))
                       2 demo_launched) !! 1%nat
     = Some (mk_task "example.com" "port_scan"
                     ["-p"; "subdomain-enum"; "-m"; "portscan"] 1800
                     (Finite (2 + inject_Z 1800)) false).
Proof.
  split; [reflexivity|].
  apply (normal_completion_reschedules 1
           (mk_task "example.com" "port_scan"
                    ["-p"; "subdomain-enum"; "-m"; "portscan"] 1800 Infinite true)).
  reflexivity.
Defined.

(** C4: when the future raised FileNotFoundError, the handler logs the fatal
    message and sets the stop flag; the schedule is left as it was, so the task,
    reserved since its launch, stays marked running with [next] at infinity. *)
Theorem executor_not_found_stops :
  forall (a : cli_args) (t0 t : Q) (st : state) (i : nat),
    reachable a t0 st ->
    In i (callbacks st) ->
    let st' := complete i RaisedFileNotFound t st in
    log_lines st' = (log_lines st ++ ["ERROR: 'bbot' not found on PATH. Exiting."])%list
    /\ stop_event st' = true
    /\ schedule st' = schedule st
    /\ reserved i st'.
Proof.
  intros a t0 t st i Hreach Hi.
  pose proof (reachable_consistent a t0 st Hreach) as Hc.
  pose proof (in_flight_reserved st i Hc Hi) as Hres.
  destruct Hres as (s & Hs & Hr & Hn).
  unfold complete, on_done. simpl. rewrite Hs. simpl.
  repeat split. exists s. auto.
Qed.

Lemma executor_not_found_stops_witness :
  reachable demo_args 0 demo_waiting
  /\ In 1%nat (callbacks demo_waiting)
  /\ stop_event (complete 1 RaisedFileNotFound 1 demo_waiting) = true
  /\ schedule (complete 1 RaisedFileNotFound 1 demo_waiting) = schedule demo_waiting.
Proof.
  split; [apply demo_waiting_reachable|].
  split; [vm_compute; auto|].
  pose proof (executor_not_found_stops demo_args 0 1 demo_waiting 1
                demo_waiting_reachable) as H.
  assert (Hin : In 1%nat (callbacks demo_waiting)) by (vm_compute; auto).
  destruct (H Hin) as (_ & Hstop & Hsched & _). split; assumption.
Defined.

Lemma append_assoc_string (x y z : string) : ((x ++ y) ++ z = x ++ y ++ z)%string.
Proof. induction x as [|c x IH]; simpl; [reflexivity|]. now rewrite IH. Qed.

(** C5: when the future raised any other exception, the handler logs
    "ERROR running", the domain and the scan name of the task joined by a
    colon, and the error; it stores its clock reading plus the period in
    [next] and clears [running]; the stop flag is left as it was, so a loop
    that was running passes the test at its next head and goes on with the
    launches and the sleep of that tick. *)
Theorem other_error_reschedules :
  forall (a : cli_args) (i : nat) (s : task) (st : state) (e : string) (t : Q),
    schedule st !! i = Some s ->
    let st' := on_done i (RaisedException e) t st in
    log_lines st'
    = (log_lines st
         ++ [("ERROR running " ++ domain s ++ ":" ++ name s ++ ": " ++ e)%string])%list
    /\ schedule st' !! i
       = Some (mk_task (domain s) (name s) (args s) (period s)
                       (Finite (t + inject_Z (period s))) false)
    /\ stop_event st' = stop_event st
    /\ (stop_event st = false -> forall now, step a st' (dispatch a now st'))
    /\ (stop_event st = false ->
        forall clock, main_loop a clock [] st' = mk_run StillLooping clock st')
    /\ (stop_event st = false ->
        forall clock iv env,
          main_loop a clock (iv :: env) st'
          = match sleep_for clock (schedule (dispatch a clock st')) with
            | Infinite => mk_run SleepRaised clock (dispatch a clock st')
            | Finite d =>
                match interrupt iv with
                | Some k =>
                    mk_run Interrupted k
                      (do_log "Exiting."
                         (run_callbacks (completions iv) (dispatch a clock st')))
                | None =>
                    main_loop a (clock + d) env
                      (run_callbacks (completions iv) (dispatch a clock st'))
                end
            end).
Proof.
  intros a i s st e t Hs st'.
  assert (Hst' : st' = reschedule i t
                   (do_log ("ERROR running " ++ ident s ++ ": " ++ e) st)).
  { subst st'. unfold on_done. now rewrite Hs. }
  assert (Hstop : stop_event st' = stop_event st) by now rewrite Hst'.
  split.
  - rewrite Hst'. simpl. unfold ident. now rewrite !append_assoc_string.
  - split; [rewrite Hst'; now apply lookup_reschedule_eq|].
    split; [exact Hstop|]. split; [|split].
    + intros H now. apply step_tick. now rewrite Hstop.
    + intros H clock. simpl. now rewrite Hstop, H.
    + intros H clock iv env. simpl. now rewrite Hstop, H.
Qed.

Lemma other_error_reschedules_witness :
  schedule demo_launched !! 1%nat
  = Some (mk_task "example.com" "port_scan"
                  ["-p"; "subdomain-enum"; "-m"; "portscan"] 1800 Infinite true)
  /\ log_lines (on_done 1 (RaisedException "[Errno 13] Permission denied: 'sudo'")
                        2 demo_launched)
     = (log_lines demo_launched
          ++ ["ERROR running example.com:port_scan: [Errno 13] Permission denied: 'sudo'"])%list
  /\ schedule (on_done 1 (RaisedException "[Errno 13] Permission denied: 'sudo'")
                       2 demo_launched) !! 1%nat
     = Some (mk_task "example.com" "port_scan"
                     ["-p"; "subdomain-enum"; "-m"; "portscan"] 1800
                     (Finite (2 + inject_Z 1800)) false)
  /\ stop_event (on_done 1 (RaisedException "[Errno 13] Permission denied: 'sudo'")
                         2 demo_launched) = false
  /\ reason (main_loop demo_args 3 []
               (on_done 1 (RaisedException "[Errno 13] Permission denied: 'sudo'")
                        2 demo_launched)) = StillLooping.
Proof.
  split; [reflexivity|].
  destruct (other_error_reschedules demo_args 1
              (mk_task "example.com" "port_scan"
                       ["-p"; "subdomain-enum"; "-m"; "portscan"] 1800 Infinite true)
              demo_launched "[Errno 13] Permission denied: 'sudo'" 2 eq_refl)
    as (Hlog & Hsched & Hstop & _ & Hloop & _).
  split; [exact Hlog|]. split; [exact Hsched|]. split; [exact Hstop|].
  now rewrite (Hloop eq_refl 3%Q).
Defined.

(** ** What a log line contains *)

Lemma prefix_app (n q : string) : String.prefix n (n ++ q) = true.
Proof.
  induction n as [|c n IH]; simpl; [now destruct q|].
  destruct (ascii_dec c c) as [_|Hne]; [assumption|contradiction].
Qed.

Lemma contains_here (n q : string) : contains n (n ++ q) = true.
Proof.
  pose proof (prefix_app n q) as H.
  destruct (n ++ q); cbn [contains]; now rewrite H.
Qed.

Lemma contains_later (n p q : string) :
  contains n q = true -> contains n (p ++ q) = true.
Proof.
  intros H. induction p as [|c p IH]; [assumption|].
  change (String c p ++ q) with (String c (p ++ q)). cbn [contains].
  rewrite IH. apply orb_true_r.
Qed.

Lemma contains_log (n ts msg : string) :
  contains n msg = true -> contains n (log ts msg) = true.
Proof.
  intros H. unfold log.
  apply (contains_later n "["), contains_later, (contains_later n "] "), H.
Qed.

(** C9, with the wording of the code: on a normal completion the handler logs one
    message that starts with the task identity; after a non-zero exit status it
    reads "FAILED in {elapsed}s (returncode {code})", after a zero exit status
    "completed in {elapsed}s"; in both cases the captured standard output, if
    not empty, is written to the standard output stream, and the captured
    standard error, on its own, to the standard error stream. *)
Theorem completion_log_and_passthrough :
  forall (i : nat) (s : task) (st : state) (start_ end_ t : Q) (proc : completed),
    schedule st !! i = Some s ->
    let st' := on_done i (run_scan start_ end_ (Ran proc)) t st in
    let elapsed := format_1f (end_ - start_) in
    let wording :=
      if (returncode proc =? 0)%Z then "completed in " ++ elapsed ++ "s"
      else "FAILED in " ++ elapsed ++ "s (returncode "
             ++ str_of_Z (returncode proc) ++ ")" in
    log_lines st' = (log_lines st ++ [(ident s ++ " " ++ wording)%string])%list
    /\ (forall ts, contains wording (log ts (ident s ++ " " ++ wording)) = true)
    /\ (forall ts, contains (ident s) (log ts (ident s ++ " " ++ wording)) = true)
    /\ out_stream st'
       = (if String.eqb (stdout proc) "" then out_stream st
          else out_stream st ++ [stdout proc])%list
    /\ err_stream st'
       = (if String.eqb (stderr proc) "" then err_stream st
          else err_stream st ++ [stderr proc])%list.
Proof.
  intros i s st start_ end_ t proc Hs st' elapsed wording.
  subst st'. unfold on_done. rewrite Hs. simpl.
  split.
  - subst wording elapsed. destruct (returncode proc =? 0)%Z; reflexivity.
  - split; [|split].
    + intros ts. apply contains_log, contains_later, (contains_later _ " ").
      rewrite <- (contains_here wording ""). f_equal.
      clear. induction wording as [|c w IH]; simpl; congruence.
    + intros ts. apply contains_log, contains_here.
    + destruct (negb (returncode proc =? 0)%Z); simpl;
        destruct (stdout proc), (stderr proc); auto.
Qed.

Lemma completion_log_and_passthrough_witness :
  schedule demo_launched !! 1%nat
  = Some (mk_task "example.com" "port_scan"
                  ["-p"; "subdomain-enum"; "-m"; "portscan"] 1800 Infinite true)
  /\ log_lines (on_done 1 demo_failed_run 2 demo_launched)
     = (log_lines demo_launched
          ++ ["example.com:port_scan FAILED in 1.5s (returncode 1)"])%list
  /\ err_stream (on_done 1 demo_failed_run 2 demo_launched) = ["scan aborted"]
  /\ out_stream (on_done 1 demo_failed_run 2 demo_launched) = [].
Proof.
  split; [reflexivity|].
  pose proof (completion_log_and_passthrough 1
                (mk_task "example.com" "port_scan"
                         ["-p"; "subdomain-enum"; "-m"; "portscan"] 1800 Infinite true)
                demo_launched 0 (3 # 2) 2 (mk_completed 1 "" "scan aborted")
                eq_refl) as (Hlog & _ & _ & Hout & Herr).
  split; [exact Hlog|]. split; [exact Herr|exact Hout].
Defined.

(** C9 with the wording "(status {code})" does not hold: after exit status 1
    no log line contains "FAILED in 1.5s (status 1)"; the line says
    "returncode". *)
Lemma failed_run_log_wording :
  existsb (contains "FAILED in 1.5s (status 1)")
          (map (log "2026-11-03 10:00:00")
               (log_lines (on_done 1 demo_failed_run 2 demo_launched))) = false
  /\ existsb (contains "FAILED in 1.5s (returncode 1)")
             (map (log "2026-11-03 10:00:00")
                  (log_lines (on_done 1 demo_failed_run 2 demo_launched))) = true.
Proof. vm_compute. split; reflexivity. Qed.

(** ** Reachable states *)

(** While only one of the two assignments of a reservation, or of a
    rescheduling, has been made, the task is marked running; neither the
    selection of due tasks nor [next_times] reads [next] of such a task. *)
Lemma running_task_is_skipped (now : Q) (s : task) :
  running s = true -> is_due now s = false /\ next_times [s] = [].
Proof. intros H. unfold is_due, next_times. simpl. now rewrite H. Qed.

(** At the end of every launch and of every callback, whatever its outcome,
    each task is either running with [next] at infinity, or not running with
    a clock reading in [next].  A launch and a callback each count as one
    step here; the single assignments are taken up further down. *)
Lemma running_xor_scheduled :
  forall (a : cli_args) (t0 : Q) (st : state) (i : nat) (s : task),
    reachable a t0 st ->
    schedule st !! i = Some s ->
    (running s = true /\ next s = Infinite)
    \/ (running s = false /\ exists t, next s = Finite t).
Proof.
  intros a t0 st i s Hreach Hs.
  pose proof (reachable_consistent a t0 st Hreach) as Hc.
  pose proof (Forall_lookup_1 _ _ _ _ (tasks_ok st Hc) Hs) as Hok.
  unfold exactly_one in Hok.
  destruct (running s), (next s) as [t|]; try discriminate; eauto.
Qed.

Lemma running_xor_scheduled_witness :
  reachable demo_args 0 demo_waiting
  /\ schedule demo_waiting !! 0%nat
     = Some (mk_task "example.com" "web_probe" ["-p"; "web-basic"] 900
                     (Finite ((1 # 10) + inject_Z 900)) false)
  /\ ((false = true /\ Finite ((1 # 10) + inject_Z 900) = Infinite)
      \/ (false = false /\ exists t, Finite ((1 # 10) + inject_Z 900) = Finite t)).
Proof.
  split; [apply demo_waiting_reachable|]. split; [reflexivity|].
  apply (running_xor_scheduled demo_args 0 demo_waiting 0
           (mk_task "example.com" "web_probe" ["-p"; "web-basic"] 900
                    (Finite ((1 # 10) + inject_Z 900)) false)
           demo_waiting_reachable).
  reflexivity.
Defined.

(** ** Reservation *)

(** C1, in the order the code has: [launch_scan] submits the command first,
    with the schedule still untouched when the submission has returned;
    it reserves the task next, before the callback is attached, and returns
    with the task submitted, reserved and in flight.  From then on, whatever
    ticks and callbacks of other tasks take place, a task whose callback has
    not run yet stays reserved and is never selected as due. *)
Theorem reserved_before_next_selection :
  forall (a : cli_args) (t0 : Q) (st : state),
    reachable a t0 st ->
    (forall i s, schedule st !! i = Some s ->
       let st1 := ls_submit a i (ls_log a i st) in
       let st2 := ls_reserve i st1 in
       In i (map fst (submitted st1)) /\ schedule st1 = schedule st
       /\ reserved i st2 /\ callbacks st2 = callbacks st
       /\ launch_scan a i st = ls_attach i st2
       /\ reserved i (launch_scan a i st)
       /\ In i (callbacks (launch_scan a i st)))
    /\ (forall i now, In i (callbacks st) ->
          reserved i st
          /\ ~ In i (due now (schedule st))
          /\ ~ In i (dispatch_order now (schedule st))).
Proof.
  intros a t0 st Hreach. split.
  - intros i s Hs st1 st2.
    assert (Hres : reserved i (launch_scan a i st)).
    { eexists. split; [exact (lookup_launch_scan_eq a i st s Hs)|].
      split; reflexivity. }
    split; [|split; [|split; [|split; [|split; [|split]]]]].
    + subst st1. unfold ls_submit. rewrite schedule_ls_log, Hs. simpl.
      rewrite map_app. apply in_or_app. right. now left.
    + subst st1. now rewrite schedule_ls_submit, schedule_ls_log.
    + exact Hres.
    + subst st2 st1. unfold ls_reserve. simpl.
      now rewrite callbacks_ls_submit, callbacks_ls_log.
    + reflexivity.
    + exact Hres.
    + rewrite callbacks_launch_scan. apply in_or_app. right. now left.
  - intros i now Hi.
    pose proof (reachable_consistent a t0 st Hreach) as Hc.
    pose proof (in_flight_reserved st i Hc Hi) as Hres.
    split; [assumption|].
    split; [now apply reserved_not_due|].
    rewrite dispatch_order_due. now apply reserved_not_due.
Qed.

Lemma reserved_before_next_selection_witness :
  reachable demo_args 0 demo_waiting
  /\ In 1%nat (callbacks demo_waiting)
  /\ ~ In 1%nat (due 5000 (schedule demo_waiting)).
Proof.
  split; [apply demo_waiting_reachable|].
  assert (Hin : In 1%nat (callbacks demo_waiting)) by (vm_compute; auto).
  split; [exact Hin|].
  exact (proj1 (proj2 (proj2 (reserved_before_next_selection demo_args 0 demo_waiting
                                demo_waiting_reachable) 1%nat 5000%Q Hin))).
Defined.

(** C1 with the reservation placed before the return of the submission does
    not hold: when [executor.submit] has returned for the first task of the
    first tick, that task is not reserved yet. *)
Lemma submit_returns_before_reservation :
  ~ reserved_when_submit_returns demo_args.
Proof.
  intros H.
  destruct (H 0%Q (initial_state demo_args 0) 0%Q 0%nat
              (reach_init demo_args 0%Q)) as (s & Hs & Hr & _).
  - vm_compute. auto.
  - vm_compute in Hs. inversion Hs. subst s. discriminate.
Qed.

(** ** Dispatch order *)

Lemma submitted_launch_all (a : cli_args) : forall l st,
  (forall i, In i l -> (i < length (schedule st))%nat) ->
  map fst (submitted (fold_left (fun st' i => launch_scan a i st') l st))
  = (map fst (submitted st) ++ l)%list.
Proof.
  induction l as [|i rest IH]; intros st Hl; simpl.
  - now rewrite app_nil_r.
  - rewrite IH.
    + destruct (lookup_lt_is_Some_2 (schedule st) i (Hl i (or_introl eq_refl)))
        as (s & Hs).
      unfold launch_scan, ls_attach, ls_reserve, ls_submit. simpl.
      rewrite schedule_ls_log, Hs. simpl.
      assert (Hlog : submitted (ls_log a i st) = submitted st).
      { unfold ls_log. now rewrite Hs. }
      rewrite Hlog, map_app. simpl. now rewrite <- app_assoc.
    + intros j Hj. rewrite schedule_launch_scan, !length_alter.
      apply Hl. now right.
Qed.

Lemma strongly_sorted_split (R : nat -> nat -> Prop) : forall l1 i l2 j l3,
  StronglySorted R (l1 ++ i :: l2 ++ j :: l3) -> R i j.
Proof.
  induction l1 as [|x l1 IH]; intros i l2 j l3 H.
  - simpl in H. apply StronglySorted_inv in H as [_ H].
    rewrite List.Forall_forall in H. apply H, in_or_app. right. now left.
  - simpl in H. apply StronglySorted_inv in H as [H _]. now apply IH in H.
Qed.

Lemma due_has_time now sched i :
  In i (due now sched) ->
  exists s t, sched !! i = Some s /\ running s = false
              /\ next s = Finite t /\ (t <= now)%Q.
Proof.
  intros H. apply in_due in H as (s & Hs & Hd).
  unfold is_due in Hd. apply andb_prop in Hd as [Hr Hn].
  destruct (next s) as [t|] eqn:Ht; [|discriminate].
  exists s, t. repeat split; auto.
  - now destruct (running s).
  - now apply Qle_bool_iff.
Qed.

(** C7: a tick launches exactly the tasks that are not running and whose
    [next] is a clock reading at most that of the tick, each once; of two
    tasks it launches, the one launched first has the smaller [next], or the
    same [next] and the earlier place in the schedule; the commands are
    submitted in that order, which the clock reading and the schedule
    determine. *)
Theorem dispatch_selects_and_orders :
  forall (a : cli_args) (now : Q) (st : state),
    let order := dispatch_order now (schedule st) in
    (forall i, In i order
       <-> exists s t, schedule st !! i = Some s /\ running s = false
                       /\ next s = Finite t /\ (t <= now)%Q)
    /\ List.NoDup order
    /\ (forall l1 i l2 j l3,
          order = (l1 ++ i :: l2 ++ j :: l3)%list ->
          exists si sj ti tj,
            schedule st !! i = Some si /\ schedule st !! j = Some sj
            /\ next si = Finite ti /\ next sj = Finite tj
            /\ ((ti < tj)%Q \/ ((ti == tj)%Q /\ (i < j)%nat)))
    /\ StronglySorted (dispatched_before (schedule st)) order
    /\ map fst (submitted (dispatch a now st))
       = (map fst (submitted st) ++ order)%list.
Proof.
  intros a now st order. subst order.
  assert (Hsorted : StronglySorted (dispatched_before (schedule st))
                                   (dispatch_order now (schedule st))).
  { apply sorted_stable, due_from_increasing. }
  split; [|split; [|split; [|split]]].
  - intros i. rewrite dispatch_order_due. split.
    + apply due_has_time.
    + intros (s & t & Hs & Hr & Hn & Hle). apply in_due. exists s.
      split; [exact Hs|]. unfold is_due. rewrite Hr, Hn. simpl.
      now apply Qle_bool_iff.
  - apply dispatch_order_nodup.
  - intros l1 i l2 j l3 Heq.
    assert (Hi : In i (dispatch_order now (schedule st))).
    { rewrite Heq. apply in_or_app. right. now left. }
    assert (Hj : In j (dispatch_order now (schedule st))).
    { rewrite Heq. apply in_or_app. right. right.
      apply in_or_app. right. now left. }
    apply dispatch_order_due, due_has_time in Hi as (si & ti & Hsi & _ & Hni & _).
    apply dispatch_order_due, due_has_time in Hj as (sj & tj & Hsj & _ & Hnj & _).
    exists si, sj, ti, tj. repeat split; auto.
    rewrite Heq in Hsorted. apply strongly_sorted_split in Hsorted.
    unfold dispatched_before, before_by, key_of in Hsorted.
    rewrite Hsi, Hsj, Hni, Hnj in Hsorted.
    destruct Hsorted as [Hlt|[[Hle1 Hle2] Hidx]].
    + left. unfold stamp_lt in Hlt. simpl in Hlt.
      apply negb_true_iff in Hlt. apply Qnot_le_lt. intros Hle.
      apply Qle_bool_iff in Hle. congruence.
    + right. split; [|exact Hidx].
      unfold stamp_le in Hle1, Hle2. simpl in Hle1, Hle2.
      apply Qle_bool_iff in Hle1. apply Qle_bool_iff in Hle2.
      now apply Qle_antisym.
  - exact Hsorted.
  - unfold dispatch. apply submitted_launch_all.
    intros i Hi. apply dispatch_order_due, in_due in Hi as (s & Hs & _).
    apply lookup_lt_is_Some_1. eauto.
Qed.

Lemma dispatch_selects_and_orders_witness :
  dispatch_order 2000 (schedule demo_mixed) = [2; 0; 1; 3]%nat
  /\ map fst (submitted (dispatch demo_args 2000 demo_mixed)) = [2; 0; 1; 3]%nat
  /\ dispatch_order 1600 (schedule demo_mixed) = [2; 0; 1]%nat
  /\ exists si sj ti tj,
       schedule demo_mixed !! 2%nat = Some si
       /\ schedule demo_mixed !! 0%nat = Some sj
       /\ next si = Finite ti /\ next sj = Finite tj
       /\ ((ti < tj)%Q \/ ((ti == tj)%Q /\ (2 < 0)%nat)).
Proof.
  destruct (dispatch_selects_and_orders demo_args 2000 demo_mixed)
    as (_ & _ & Hord & _ & Hsub).
  split; [reflexivity|]. split; [exact Hsub|]. split; [reflexivity|].
  exact (Hord [] 2%nat [] 0%nat [1; 3]%nat eq_refl).
Defined.

(** ** The sleep of a tick *)

Lemma py_min_in : forall xs x, In (py_min x xs) (x :: xs).
Proof.
  unfold py_min. induction xs as [|y ys IH]; intros x; simpl; [now left|].
  destruct (IH (if stamp_ltb y x then y else x)) as [H|H].
  - rewrite <- H. destruct (stamp_ltb y x); auto.
  - auto.
Qed.

Lemma py_min_le : forall xs x y, In y (x :: xs) -> stamp_le (py_min x xs) y.
Proof.
  unfold py_min. induction xs as [|z zs IH]; intros x y Hy; simpl.
  - destruct Hy as [<-|[]]. apply stamp_le_refl.
  - set (m := if stamp_ltb z x then z else x).
    assert (Hm : stamp_le m x /\ stamp_le m z).
    { subst m. destruct (stamp_ltb z x) eqn:E.
      - split; [now apply stamp_lt_le|apply stamp_le_refl].
      - split; [apply stamp_le_refl|now apply stamp_not_lt]. }
    destruct Hy as [<-|[<-|Hy]].
    + apply stamp_le_trans with m; [apply IH; now left|apply Hm].
    + apply stamp_le_trans with m; [apply IH; now left|apply Hm].
    + apply IH. now right.
Qed.

Lemma in_next_times sched x :
  In x (next_times sched) <-> exists s, In s sched /\ running s = false /\ next s = x.
Proof.
  unfold next_times. rewrite in_map_iff. split.
  - intros (s & Hx & Hs). apply filter_In in Hs as [Hs Hr].
    exists s. repeat split; auto. now destruct (running s).
  - intros (s & Hs & Hr & Hx). exists s. split; [assumption|].
    apply filter_In. split; [assumption|]. now rewrite Hr.
Qed.

Lemma floor_below_idle : (floor_interval <= idle_delay)%Q.
Proof. unfold floor_interval, idle_delay. lra. Qed.

Lemma floor_positive : (0 < floor_interval)%Q.
Proof. unfold floor_interval. lra. Qed.

(** C8: in a reachable state the value of [sleep_for] is a number of
    seconds, at least the floor of 0.2 and so never zero; it is the idle delay
    of 0.5 when every task is running, and otherwise the larger of the floor
    and the distance from the tick's clock reading to the earliest [next]
    among the tasks that are not running. *)
Theorem sleep_for_bounds :
  forall (a : cli_args) (t0 now : Q) (st : state),
    reachable a t0 st ->
    exists d,
      sleep_for now (schedule st) = Finite d
      /\ (floor_interval <= d)%Q
      /\ (0 < d)%Q
      /\ ((forall s, In s (schedule st) -> running s = true) -> d = idle_delay)
      /\ ((exists s, In s (schedule st) /\ running s = false) ->
          exists s m,
            In s (schedule st) /\ running s = false /\ next s = Finite m
            /\ (forall s', In s' (schedule st) -> running s' = false ->
                           stamp_le (Finite m) (next s'))
            /\ (d == Qmax (m - now) floor_interval)%Q).
Proof.
  intros a t0 now st Hreach.
  pose proof (reachable_consistent a t0 st Hreach) as Hc.
  pose proof (tasks_ok st Hc) as Hok. rewrite List.Forall_forall in Hok.
  pose proof floor_positive as Hfl.
  unfold sleep_for.
  destruct (next_times (schedule st)) as [|x xs] eqn:Hnt.
  - exists idle_delay. split; [reflexivity|].
    split; [apply floor_below_idle|].
    split; [unfold idle_delay; lra|].
    split; [reflexivity|].
    intros (s & Hs & Hr).
    assert (Hin : In (next s) (next_times (schedule st))).
    { apply in_next_times. eauto. }
    rewrite Hnt in Hin. destruct Hin.
  - pose proof (py_min_in xs x) as Hin. rewrite <- Hnt in Hin.
    apply in_next_times in Hin as (s & Hs & Hr & Hn).
    pose proof (Hok s Hs) as Hone. unfold exactly_one in Hone.
    rewrite Hr in Hone. destruct (next s) as [m|] eqn:Hm; [|discriminate].
    rewrite <- Hn. simpl. unfold py_max. simpl.
    assert (Hrun : (forall s', In s' (schedule st) -> running s' = true) -> False).
    { intros Hall. rewrite (Hall s Hs) in Hr. discriminate. }
    assert (Hmin : forall s', In s' (schedule st) -> running s' = false ->
                              stamp_le (Finite m) (next s')).
    { intros s' Hs' Hr'. rewrite Hn. apply py_min_le. rewrite <- Hnt.
      apply in_next_times. eauto. }
    destruct (Qle_bool floor_interval (m - now)) eqn:E; simpl.
    + apply Qle_bool_iff in E.
      exists (m - now)%Q. split; [reflexivity|]. split; [assumption|].
      split; [lra|]. split; [intros Hall; destruct (Hrun Hall)|].
      intros _. exists s, m. repeat split; auto.
      symmetry. now apply Q.max_l.
    + assert (E' : (m - now < floor_interval)%Q).
      { apply Qnot_le_lt. intros Hle. apply Qle_bool_iff in Hle. congruence. }
      exists floor_interval. split; [reflexivity|]. split; [apply Qle_refl|].
      split; [assumption|]. split; [intros Hall; destruct (Hrun Hall)|].
      intros _. exists s, m. repeat split; auto.
      symmetry. apply Q.max_r. now apply Qlt_le_weak.
Qed.

Lemma sleep_for_bounds_witness :
  reachable demo_args 0 demo_waiting
  /\ exists d, sleep_for (1 # 2) (schedule demo_waiting) = Finite d
               /\ (floor_interval <= d)%Q /\ (0 < d)%Q.
Proof.
  split; [apply demo_waiting_reachable|].
  destruct (sleep_for_bounds demo_args 0 (1 # 2) demo_waiting demo_waiting_reachable)
    as (d & Hd & Hfl & Hpos & _).
  exists d. auto.
Defined.

(** ** The stop flag *)

Lemma main_loop_stop_seen (a : cli_args) clock env st :
  stop_event st = true -> main_loop a clock env st = mk_run StopSeen clock st.
Proof. intros H. destruct env; simpl; now rewrite H. Qed.

(** C6, for the sleep the code has: the loop reads the stop flag at the head of each
    tick only.  A tick entered with the flag clear launches, sleeps for the
    whole computed delay whatever the callbacks do meanwhile, and the flag
    they may have set is seen at the next loop head, one full delay later. *)
Theorem stop_flag_seen_at_loop_head_only :
  forall (a : cli_args) (clock d : Q) (iv : interval) (env : list interval)
         (st : state),
    stop_event st = false ->
    interrupt iv = None ->
    sleep_for clock (schedule (dispatch a clock st)) = Finite d ->
    let st' := run_callbacks (completions iv) (dispatch a clock st) in
    main_loop a clock (iv :: env) st = main_loop a (clock + d) env st'
    /\ (stop_event st' = true ->
        main_loop a clock (iv :: env) st = mk_run StopSeen (clock + d) st')
    /\ (forall c e s, stop_event s = true ->
                      main_loop a c e s = mk_run StopSeen c s).
Proof.
  intros a clock d iv env st Hstop Hint Hsleep st'.
  assert (Heq : main_loop a clock (iv :: env) st = main_loop a (clock + d) env st').
  { simpl. rewrite Hstop, Hsleep, Hint. reflexivity. }
  split; [exact Heq|]. split.
  - intros Hset. rewrite Heq. now apply main_loop_stop_seen.
  - intros c e s. apply main_loop_stop_seen.
Qed.

Lemma stop_flag_seen_at_loop_head_only_witness :
  stop_event demo_waiting = false
  /\ sleep_for (1 # 2) (schedule (dispatch demo_args (1 # 2) demo_waiting))
     = Finite (17992 # 20)
  /\ main_loop demo_args (1 # 2)
       [mk_interval [(1%nat, RaisedFileNotFound, 1%Q)] None] demo_waiting
     = mk_run StopSeen ((1 # 2) + (17992 # 20))
         (run_callbacks [(1%nat, RaisedFileNotFound, 1%Q)]
            (dispatch demo_args (1 # 2) demo_waiting)).
Proof.
  split; [reflexivity|]. split; [reflexivity|].
  apply (stop_flag_seen_at_loop_head_only demo_args (1 # 2) (17992 # 20)
           (mk_interval [(1%nat, RaisedFileNotFound, 1%Q)] None) [] demo_waiting);
    reflexivity.
Defined.

(** C6 with a sleep that the stop flag interrupts does not hold: a callback
    sets the stop flag half a second into a sleep of 899.6 seconds, and the
    loop is left only when that sleep is over. *)
Lemma stop_during_sleep_waits :
  ~ stop_cuts_sleep demo_args.
Proof.
  intros H.
  specialize (H (1 # 2) (mk_interval [(1%nat, RaisedFileNotFound, 1%Q)] None) []
                demo_waiting (17992 # 20) 1%nat 1%Q).
  assert (Hlt : (exit_at (main_loop demo_args (1 # 2)
                            [mk_interval [(1%nat, RaisedFileNotFound, 1%Q)] None]
                            demo_waiting)
                 < (1 # 2) + (17992 # 20))%Q).
  { apply H; try reflexivity.
    - now left.
    - vm_compute. discriminate. }
  vm_compute in Hlt. discriminate.
Qed.

(** * Further properties *)

(** ** Stripping *)

Lemma is_space_LF : is_space LF = true.
Proof. reflexivity. Qed.

Lemma lstrip_shape s :
  lstrip s = EmptyString
  \/ exists c r, lstrip s = String c r /\ is_space c = false.
Proof.
  induction s as [|c r IH]; simpl; [now left|].
  destruct (is_space c) eqn:E; [exact IH|]. right. eauto.
Qed.

Lemma rstrip_keeps_head c r :
  is_space c = false -> exists r', rstrip (String c r) = String c r'.
Proof.
  intros E. simpl. destruct (rstrip r); [|eauto]. rewrite E. eauto.
Qed.

Lemma lstrip_strip s : lstrip (strip s) = strip s.
Proof.
  unfold strip. destruct (lstrip_shape s) as [->|(c & r & -> & E)]; [reflexivity|].
  destruct (rstrip_keeps_head c r E) as (r' & ->). simpl. now rewrite E.
Qed.

Lemma rstrip_cons c r x y :
  rstrip r = String x y -> rstrip (String c r) = String c (String x y).
Proof. intros H. simpl. now rewrite H. Qed.

Lemma rstrip_idempotent s : rstrip (rstrip s) = rstrip s.
Proof.
  induction s as [|c r IH]; [reflexivity|].
  destruct (rstrip r) as [|c' r'] eqn:Er.
  - simpl. rewrite Er. destruct (is_space c) eqn:E; [reflexivity|].
    simpl. now rewrite E.
  - rewrite (rstrip_cons c r c' r' Er). now apply rstrip_cons.
Qed.

Lemma rstrip_strip s : rstrip (strip s) = strip s.
Proof. unfold strip. apply rstrip_idempotent. Qed.

Lemma rstrip_app_space s c :
  is_space c = true -> rstrip (s ++ String c EmptyString) = rstrip s.
Proof.
  intros E. induction s as [|x r IH]; simpl; [now rewrite E|].
  now rewrite IH.
Qed.

Lemma lstrip_length s : (String.length (lstrip s) <= String.length s)%nat.
Proof.
  induction s as [|c r IH]; simpl; [lia|].
  destruct (is_space c); simpl; lia.
Qed.

Lemma lstrip_fixed_head c r : lstrip (String c r) = String c r -> is_space c = false.
Proof.
  simpl. destruct (is_space c); [|reflexivity]. intros H.
  pose proof (lstrip_length r) as Hl. rewrite H in Hl. simpl in Hl. lia.
Qed.

Lemma skipped_false d :
  skipped d = false -> d <> EmptyString /\ String.prefix "#" d = false.
Proof. destruct d; simpl; [discriminate|]. intros H. split; [discriminate|exact H]. Qed.

(** ** Lines *)

Lemma no_cr_universal_newlines s :
  no_cr (universal_newlines s) = true
  /\ forall c, no_cr (universal_newlines (String c s)) = true.
Proof.
  induction s as [|c' r' [IH1 IH2]].
  - split; [reflexivity|]. intros c. simpl.
    destruct (Ascii.eqb c CR) eqn:E; simpl; [reflexivity|now rewrite E].
  - split; [apply IH2|]. intros c.
    cbn [universal_newlines]. fold universal_newlines.
    destruct (Ascii.eqb c CR) eqn:E.
    + destruct (Ascii.eqb c' LF); cbn [no_cr]; [exact IH1|apply IH2].
    + cbn [no_cr]. rewrite E. apply IH2.
Qed.

Lemma lines_of_shape t : forall l,
  In l (lines_of t) -> lf_last l = true /\ (no_cr t = true -> no_cr l = true).
Proof.
  induction t as [|c r IH]; intros l Hl; [destruct Hl|].
  cbn [lines_of] in Hl. cbn [no_cr].
  destruct (Ascii.eqb c LF) eqn:E.
  - destruct Hl as [<-|Hl].
    + split; [reflexivity|]. intros H. apply andb_prop in H as [H _].
      simpl. now rewrite H.
    + destruct (IH l Hl) as [H1 H2]. split; [exact H1|].
      intros H. apply andb_prop in H as [_ H]. auto.
  - destruct (lines_of r) as [|l0 ls] eqn:Er.
    + destruct Hl as [<-|[]]. split; [reflexivity|].
      intros H. apply andb_prop in H as [H _]. simpl. now rewrite H.
    + destruct Hl as [<-|Hl].
      * destruct (IH l0 (or_introl eq_refl)) as [H1 H2]. split.
        -- cbn [lf_last]. destruct l0; [reflexivity|]. now rewrite E, H1.
        -- intros H. apply andb_prop in H as [Hc Hr]. cbn [no_cr].
           now rewrite Hc, H2.
      * destruct (IH l (or_intror Hl)) as [H1 H2]. split; [exact H1|].
        intros H. apply andb_prop in H as [_ H]. auto.
Qed.

Lemma lstrip_keeps_shape s :
  lf_last s = true -> no_cr s = true ->
  lf_last (lstrip s) = true /\ no_cr (lstrip s) = true.
Proof.
  induction s as [|c r IH]; intros Hl Hc; [now split|].
  cbn [lstrip]. destruct (is_space c); [|now split].
  cbn [no_cr] in Hc. apply andb_prop in Hc as [_ Hc].
  apply IH; [|exact Hc].
  cbn [lf_last] in Hl. destruct r; [reflexivity|].
  now apply andb_prop in Hl as [_ Hl].
Qed.

Lemma one_line_rstrip s :
  lf_last s = true -> no_cr s = true -> one_line (rstrip s) = true.
Proof.
  induction s as [|c r IH]; intros Hl Hc; [reflexivity|].
  cbn [no_cr] in Hc. apply andb_prop in Hc as [Hc Hr].
  assert (Hone : forall r', one_line r' = true -> Ascii.eqb c LF = false ->
                            one_line (String c r') = true).
  { intros r' Hr' E. cbn [one_line]. rewrite E, Hr'.
    now destruct (Ascii.eqb c CR). }
  cbn [rstrip]. destruct r as [|c' r'].
  - simpl. destruct (is_space c) eqn:Es; [reflexivity|].
    apply Hone; [reflexivity|].
    destruct (Ascii.eqb_spec c LF) as [->|]; [|reflexivity].
    rewrite is_space_LF in Es. discriminate.
  - cbn [lf_last] in Hl. apply andb_prop in Hl as [Hn Hl].
    apply negb_true_iff in Hn. specialize (IH Hl Hr).
    destruct (rstrip (String c' r')) as [|x y].
    + destruct (is_space c); [reflexivity|]. now apply Hone.
    + now apply Hone.
Qed.

Lemma in_load_lines d : forall ls,
  In d (load_lines ls) -> exists l, In l ls /\ d = strip l /\ skipped d = false.
Proof.
  induction ls as [|l rest IH]; intros Hd; [destruct Hd|].
  cbn [load_lines] in Hd. destruct (skipped (strip l)) eqn:E.
  - destruct (IH Hd) as (l' & Hl' & H). exists l'. split; [now right|exact H].
  - destruct Hd as [<-|Hd].
    + exists l. split; [now left|]. split; [reflexivity|exact E].
    + destruct (IH Hd) as (l' & Hl' & H). exists l'. split; [now right|exact H].
Qed.

Lemma stripped_line_is_domain_line text l :
  In l (lines_of (universal_newlines text)) ->
  skipped (strip l) = false ->
  domain_line (strip l).
Proof.
  intros Hl Hskip.
  apply lines_of_shape in Hl as [Hlf Hcr].
  specialize (Hcr (proj1 (no_cr_universal_newlines text))).
  destruct (skipped_false _ Hskip) as [Hne Hhash].
  destruct (lstrip_keeps_shape l Hlf Hcr) as [Hlf' Hcr'].
  repeat split.
  - exact Hne.
  - apply lstrip_strip.
  - apply rstrip_strip.
  - exact Hhash.
  - unfold strip. now apply one_line_rstrip.
Qed.

(** ** The domains file *)

(** X1: Every domain that [load_domains_from_file] returns is a non-empty single
    line that neither starts nor ends with white space and does not start
    with the comment sign. *)
Theorem loaded_domains_are_domain_lines :
  forall (text d : string),
    In d (load_domains_from_file text) -> domain_line d.
Proof.
  intros text d Hd. unfold load_domains_from_file in Hd.
  apply in_load_lines in Hd as (l & Hl & -> & Hskip).
  now apply stripped_line_is_domain_line with text.
Qed.

Lemma loaded_domains_are_domain_lines_witness :
  In "test.example.org" (load_domains_from_file demo_file)
  /\ domain_line "test.example.org".
Proof.
  assert (H : In "test.example.org" (load_domains_from_file demo_file)).
  { vm_compute. auto. }
  split; [exact H|].
  exact (loaded_domains_are_domain_lines demo_file "test.example.org" H).
Defined.

Lemma universal_newlines_line d t :
  one_line d = true ->
  universal_newlines (d ++ String LF t) = d ++ String LF (universal_newlines t).
Proof.
  intros Hd. induction d as [|c r IH]; [reflexivity|].
  cbn [one_line] in Hd. apply andb_prop in Hd as [Hc Hr].
  apply andb_prop in Hc as [_ Hc]. apply negb_true_iff in Hc.
  change (String c r ++ String LF t) with (String c (r ++ String LF t)).
  cbn [universal_newlines]. rewrite Hc, (IH Hr). reflexivity.
Qed.

Lemma lines_of_line d t :
  one_line d = true ->
  lines_of (d ++ String LF t) = (d ++ String LF EmptyString) :: lines_of t.
Proof.
  intros Hd. induction d as [|c r IH]; [reflexivity|].
  cbn [one_line] in Hd. apply andb_prop in Hd as [Hc Hr].
  apply andb_prop in Hc as [Hc _]. apply negb_true_iff in Hc.
  change (String c r ++ String LF t) with (String c (r ++ String LF t)).
  cbn [lines_of]. rewrite Hc, (IH Hr). reflexivity.
Qed.

Lemma strip_domain_line d :
  domain_line d -> strip (d ++ String LF EmptyString) = d.
Proof.
  intros (Hne & Hl & Hr & _ & _). unfold strip.
  destruct d as [|c r]; [contradiction|].
  pose proof (lstrip_fixed_head c r Hl) as Hc.
  change (String c r ++ String LF EmptyString)
    with (String c (r ++ String LF EmptyString)).
  cbn [lstrip]. rewrite Hc.
  change (String c (r ++ String LF EmptyString))
    with (String c r ++ String LF EmptyString).
  now rewrite rstrip_app_space.
Qed.

(** X2: Writing domains one per line and loading the file gives the domains
    back, in order, provided each is what a load returns: a non-empty single
    line without white space at either end that does not start with the
    comment sign. *)
Theorem load_write_round_trip :
  forall doms : list string,
    Forall domain_line doms ->
    load_domains_from_file (write_domains doms) = doms.
Proof.
  intros doms H. unfold load_domains_from_file.
  induction H as [|d rest Hd Hrest IH]; [reflexivity|].
  pose proof Hd as (Hne & _ & _ & Hhash & Hone).
  cbn [write_domains fold_right]. fold (write_domains rest).
  rewrite (universal_newlines_line d _ Hone), (lines_of_line d _ Hone).
  cbn [load_lines]. rewrite (strip_domain_line d Hd).
  assert (Hskip : skipped d = false).
  { destruct d; [contradiction|exact Hhash]. }
  rewrite Hskip, IH. reflexivity.
Qed.

Lemma load_write_round_trip_witness :
  Forall domain_line ["example.com"; "example.net # prod"]
  /\ load_domains_from_file (write_domains ["example.com"; "example.net # prod"])
     = ["example.com"; "example.net # prod"].
Proof.
  assert (H : Forall domain_line ["example.com"; "example.net # prod"]).
  { repeat constructor; discriminate. }
  split; [exact H|]. exact (load_write_round_trip _ H).
Defined.

(** ** The start of [main] *)

Lemma length_build_schedule doms now :
  length (build_schedule doms now) = (2 * length doms)%nat.
Proof.
  unfold build_schedule. induction doms as [|d rest IH]; [reflexivity|].
  cbn [flat_map]. rewrite length_app, IH. simpl. lia.
Qed.

Lemma pool_size_cases requested n :
  (0 < requested /\ pool_size requested n = requested)%Z
  \/ (requested <= 0
      /\ pool_size requested n = Z.min 32 (Z.max 1 (Z.of_nat n)))%Z.
Proof.
  unfold pool_size.
  destruct (requested =? 0)%Z eqn:E0; destruct (0 <? requested)%Z eqn:E1; simpl.
  - apply Z.eqb_eq in E0. right. split; [lia|reflexivity].
  - apply Z.eqb_eq in E0. right. split; [lia|reflexivity].
  - apply Z.ltb_lt in E1. left. split; [lia|reflexivity].
  - apply Z.ltb_ge in E1. right. split; [lia|reflexivity].
Qed.

Lemma resolve_from_file files ns path doms :
  arg_domains_file ns = Some path -> path <> EmptyString ->
  resolve_domains files ns = inr doms ->
  exists content, files path = Text content
                  /\ doms = load_domains_from_file content.
Proof.
  intros Hp Hne Hres. unfold resolve_domains in Hres. rewrite Hp in Hres.
  destruct path as [|c r]; [contradiction|].
  destruct (files (String c r)) as [| |content]; try discriminate.
  exists content. split; [reflexivity|]. now inversion Hres.
Qed.

(** X3: When [main] reaches the loop, there is at least one domain, each domain
    has its two tasks in the schedule, none submitted yet; the pool has at
    least one worker: the requested number when that is positive, however
    large, and otherwise the number of tasks, capped at 32.  Domains read
    from a file are non-empty stripped lines that are not comments. *)
Theorem startup_started :
  forall (files : string -> entry) (ns : namespace) (now : Q)
         (a : cli_args) (workers : Z) (st : state),
    main_startup files ns now = Started a workers st ->
    domains a <> []
    /\ st = initial_state a now
    /\ length (schedule st) = (2 * length (domains a))%nat
    /\ (1 <= workers)%Z
    /\ ((0 < arg_max_workers ns)%Z -> workers = arg_max_workers ns)
    /\ ((arg_max_workers ns <= 0)%Z ->
        workers = Z.min 32 (Z.of_nat (length (schedule st))))
    /\ (forall path, arg_domains_file ns = Some path -> path <> EmptyString ->
                     Forall domain_line (domains a)).
Proof.
  intros files ns now a workers st H. unfold main_startup in H.
  destruct (resolve_domains files ns) as [stop|doms] eqn:Hres.
  - unfold resolve_domains in Hres.
    destruct (arg_domains_file ns) as [[|c r]|]; try discriminate.
    destruct (files (String c r)); inversion Hres; subst stop; discriminate.
  - destruct doms as [|d rest]; [discriminate|].
    cbn [schedule initial_state domains] in H.
    rewrite length_build_schedule in H.
    injection H as Ha Hw Hst. subst a st.
    cbn [schedule initial_state domains].
    rewrite length_build_schedule.
    assert (Hn : (2 <= Z.of_nat (2 * length (d :: rest)))%Z)
      by (cbn [length]; lia).
    assert (Hfile : forall path, arg_domains_file ns = Some path ->
                                 path <> EmptyString ->
                                 Forall domain_line (d :: rest)).
    { intros path Hpath Hne.
      destruct (resolve_from_file files ns path _ Hpath Hne Hres)
        as (content & _ & ->).
      apply List.Forall_forall. intros x Hx.
      apply in_load_lines in Hx as (l & Hl & -> & Hskip).
      now apply stripped_line_is_domain_line with content. }
    split; [discriminate|]. split; [reflexivity|]. split; [reflexivity|].
    change (S (length rest + S (length rest + 0)))
      with (2 * length (d :: rest))%nat in Hw.
    destruct (pool_size_cases (arg_max_workers ns) (2 * length (d :: rest)))
      as [[Hpos Hp]|[Hneg Hp]]; rewrite Hp in Hw; subst workers.
    + split; [lia|]. split; [reflexivity|]. split; [lia|]. exact Hfile.
    + split; [lia|]. split; [lia|]. split; [intros _; lia|]. exact Hfile.
Qed.

Lemma startup_started_witness :
  main_startup demo_files demo_namespace 0
  = Started (mk_args ["example.com"; "test.example.org"; "example.net # prod"]
                     "https://es:9200/bbot/_doc" None None)
            6
            (initial_state
               (mk_args ["example.com"; "test.example.org"; "example.net # prod"]
                        "https://es:9200/bbot/_doc" None None) 0)
  /\ (1 <= 6)%Z.
Proof.
  assert (H : main_startup demo_files demo_namespace 0
              = Started (mk_args ["example.com"; "test.example.org";
                                  "example.net # prod"]
                                 "https://es:9200/bbot/_doc" None None)
                        6
                        (initial_state
                           (mk_args ["example.com"; "test.example.org";
                                     "example.net # prod"]
                                    "https://es:9200/bbot/_doc" None None) 0))
    by reflexivity.
  split; [exact H|].
  exact (proj1 (proj2 (proj2 (proj2 (startup_started _ _ _ _ _ _ H))))).
Defined.

Ltac unpack_refusal :=
  repeat match goal with
         | H : _ /\ _ |- _ => destruct H
         | H : _ \/ _ |- _ => destruct H
         | H : exists _, _ |- _ => destruct H
         | H : Some _ = Some _ |- _ => inversion H; clear H
         | H : Text _ = Text _ |- _ => inversion H; clear H
         end.

(** X4: Once [parse_args] has returned its namespace, the rest of [main]
    leaves with [sys.exit] before the loop in two cases only, both with
    status 2: the domains file named in the namespace is not a file; or there
    is no domain at all, because the file holds none (only blank lines and
    comments, say) or because no file is named, or an empty name, and no
    domain is given. *)
Theorem startup_refused :
  forall (files : string -> entry) (ns : namespace) (now : Q)
         (code : Z) (msg : string),
    main_startup files ns now = SysExit code msg
    <-> code = 2%Z
        /\ ((exists path,
               arg_domains_file ns = Some path /\ path <> EmptyString
               /\ files path = Missing
               /\ msg = "ERROR: domains file not found: " ++ path)
            \/ (exists path content,
                  arg_domains_file ns = Some path /\ path <> EmptyString
                  /\ files path = Text content
                  /\ load_domains_from_file content = []
                  /\ msg = "ERROR: no domains provided.")
            \/ ((arg_domains_file ns = None \/ arg_domains_file ns = Some EmptyString)
                /\ arg_domains ns = []
                /\ msg = "ERROR: no domains provided.")).
Proof.
  intros files ns now code msg. unfold main_startup, resolve_domains.
  destruct (arg_domains_file ns) as [[|c r]|] eqn:Hfile.
  - destruct (arg_domains ns) as [|d rest] eqn:Hd; split; intros H.
    + inversion H. split; [reflexivity|]. right. right. auto.
    + unpack_refusal; subst; reflexivity || congruence.
    + discriminate.
    + unpack_refusal; subst; congruence.
  - destruct (files (String c r)) as [| |content] eqn:Hf.
    + split; intros H.
      * inversion H. split; [reflexivity|]. left.
        exists (String c r). repeat split; auto; discriminate.
      * unpack_refusal; subst; reflexivity || congruence.
    + split; intros H; [discriminate|].
      unpack_refusal; subst; congruence.
    + destruct (load_domains_from_file content) as [|d rest] eqn:Hl;
        split; intros H.
      * inversion H. split; [reflexivity|]. right. left.
        exists (String c r), content. repeat split; auto; discriminate.
      * unpack_refusal; subst; reflexivity || congruence.
      * discriminate.
      * unpack_refusal; subst; congruence.
  - destruct (arg_domains ns) as [|d rest] eqn:Hd; split; intros H.
    + inversion H. split; [reflexivity|]. right. right. auto.
    + unpack_refusal; subst; reflexivity || congruence.
    + discriminate.
    + unpack_refusal; subst; congruence.
Qed.

(** ** The schedule built at startup *)

(** X5: The schedule holds the tasks domain by domain, in the order of the
    domains: the web probe of the k-th domain at position 2k and its port scan
    at position 2k+1, both due at once and not running. *)
Theorem build_schedule_layout :
  forall (doms : list string) (now : Q) (k : nat) (d : string),
    doms !! k = Some d ->
    build_schedule doms now !! (2 * k)%nat
    = Some (mk_task d "web_probe" ["-p"; "web-basic"] 900 (Finite now) false)
    /\ build_schedule doms now !! (2 * k + 1)%nat
       = Some (mk_task d "port_scan" ["-p"; "subdomain-enum"; "-m"; "portscan"]
                       1800 (Finite now) false)
    /\ length (build_schedule doms now) = (2 * length doms)%nat.
Proof.
  intros doms now k d Hk. split; [|split; [|apply length_build_schedule]].
  - revert k Hk. induction doms as [|d0 rest IH]; intros [|k] Hk;
      try discriminate.
    + inversion Hk. reflexivity.
    + replace (2 * S k)%nat with (S (S (2 * k))) by lia. apply (IH k Hk).
  - revert k Hk. induction doms as [|d0 rest IH]; intros [|k] Hk;
      try discriminate.
    + inversion Hk. reflexivity.
    + replace (2 * S k + 1)%nat with (S (S (2 * k + 1))) by lia. apply (IH k Hk).
Qed.

Lemma build_schedule_layout_witness :
  ["example.com"; "example.org"] !! 1%nat = Some "example.org"
  /\ build_schedule ["example.com"; "example.org"] 7 !! 3%nat
     = Some (mk_task "example.org" "port_scan"
                     ["-p"; "subdomain-enum"; "-m"; "portscan"] 1800 (Finite 7) false).
Proof.
  split; [reflexivity|].
  exact (proj1 (proj2 (build_schedule_layout ["example.com"; "example.org"] 7 1
                         "example.org" eq_refl))).
Defined.

Lemma in_build_schedule_domain doms now s :
  In s (build_schedule doms now) -> In (domain s) doms.
Proof.
  unfold build_schedule. intros H. apply in_flat_map in H as (d & Hd & Hs).
  apply in_map_iff in Hs as (sc & <- & _). exact Hd.
Qed.

(** X6: When no domain is listed twice, no two tasks of the schedule have the
    same domain and scan name. *)
Theorem task_identities_distinct :
  forall (doms : list string) (now : Q),
    List.NoDup doms ->
    List.NoDup (map (fun s => (domain s, name s)) (build_schedule doms now)).
Proof.
  intros doms now H. induction H as [|d rest Hd Hrest IH]; [constructor|].
  change (build_schedule (d :: rest) now)
    with (mk_task d "web_probe" ["-p"; "web-basic"] 900 (Finite now) false
          :: mk_task d "port_scan" ["-p"; "subdomain-enum"; "-m"; "portscan"]
                     1800 (Finite now) false
          :: build_schedule rest now).
  cbn [map domain name].
  assert (Hfresh : forall n, ~ In (d, n) (map (fun s => (domain s, name s))
                                             (build_schedule rest now))).
  { intros n Hin. apply in_map_iff in Hin as (s & Hs & Hin).
    apply in_build_schedule_domain in Hin. inversion Hs. congruence. }
  constructor.
  - intros [Heq|Hin]; [discriminate|]. now apply (Hfresh "web_probe").
  - constructor; [apply Hfresh|exact IH].
Qed.

Lemma task_identities_distinct_witness :
  List.NoDup ["example.com"; "example.org"]
  /\ List.NoDup (map (fun s => (domain s, name s))
                     (build_schedule ["example.com"; "example.org"] 0)).
Proof.
  assert (H : List.NoDup ["example.com"; "example.org"]).
  { constructor; [intros [H|[]]; discriminate|].
    constructor; [intros []|constructor]. }
  split; [exact H|]. exact (task_identities_distinct _ 0 H).
Defined.

(** ** Launches of a tick, one after the other *)

Section Launches.

Variable a : cli_args.

Lemma lookup_launch_all_other j : forall l st,
  ~ In j l ->
  schedule (fold_left (fun st' i => launch_scan a i st') l st) !! j
  = schedule st !! j.
Proof.
  induction l as [|i rest IH]; intros st Hj; [reflexivity|].
  cbn [fold_left]. rewrite IH by (intros H; apply Hj; now right).
  apply lookup_launch_scan_ne. intros ->. apply Hj. now left.
Qed.

Lemma callbacks_launch_all : forall l st,
  callbacks (fold_left (fun st' i => launch_scan a i st') l st)
  = (callbacks st ++ l)%list.
Proof.
  induction l as [|i rest IH]; intros st; cbn [fold_left].
  - now rewrite app_nil_r.
  - rewrite IH, callbacks_launch_scan, <- app_assoc. reflexivity.
Qed.

Lemma stop_launch_all : forall l st,
  stop_event (fold_left (fun st' i => launch_scan a i st') l st) = stop_event st.
Proof.
  induction l as [|i rest IH]; intros st; cbn [fold_left]; [reflexivity|].
  now rewrite IH, stop_launch_scan.
Qed.


Lemma reserved_launch_scan i j st :
  reserved i st -> reserved i (launch_scan a j st).
Proof.
  intros (s & Hs & Hr & Hn). destruct (Nat.eq_dec j i) as [->|Hne].
  - eexists. split; [exact (lookup_launch_scan_eq a i st s Hs)|]. now split.
  - exists s. split; [|now split]. now rewrite lookup_launch_scan_ne.
Qed.

Lemma reserved_launch_all i : forall l st,
  (In i l /\ (i < length (schedule st))%nat) \/ reserved i st ->
  reserved i (fold_left (fun st' i' => launch_scan a i' st') l st).
Proof.
  induction l as [|j rest IH]; intros st H; cbn [fold_left].
  - destruct H as [[[] _]|H]; exact H.
  - apply IH. destruct H as [[[->|Hin] Hlt]|Hres].
    + right. destruct (lookup_lt_is_Some_2 _ _ Hlt) as (s & Hs).
      eexists. split; [exact (lookup_launch_scan_eq a i st s Hs)|]. now split.
    + left. split; [exact Hin|].
      now rewrite schedule_launch_scan, !length_alter.
    + right. now apply reserved_launch_scan.
Qed.

Lemma dispatch_order_in_range now sched i :
  In i (dispatch_order now sched) -> (i < length sched)%nat.
Proof.
  intros H. apply dispatch_order_due, in_due in H as (s & Hs & _).
  apply lookup_lt_is_Some_1. eauto.
Qed.

Lemma no_member_nil {A} (l : list A) : (forall x, ~ In x l) -> l = [].
Proof. destruct l as [|x l]; [reflexivity|]. intros H. destruct (H x). now left. Qed.

End Launches.

(** ** Ticks *)

(** X7: A second tick at the same clock reading launches nothing: the tasks the
    first one launched are reserved, and it left the others, which were not
    due, as they were. *)
Theorem dispatch_idempotent :
  forall (a : cli_args) (now : Q) (st : state),
    due now (schedule (dispatch a now st)) = []
    /\ dispatch a now (dispatch a now st) = dispatch a now st.
Proof.
  intros a now st.
  assert (Hdue : due now (schedule (dispatch a now st)) = []).
  { apply no_member_nil. intros i Hi.
    destruct (in_dec Nat.eq_dec i (dispatch_order now (schedule st))) as [Hin|Hout].
    - apply (reserved_not_due (dispatch a now st) i now); [|exact Hi].
      unfold dispatch. apply reserved_launch_all. left.
      split; [exact Hin|]. now apply dispatch_order_in_range with now.
    - apply in_due in Hi as (s & Hs & Hd). unfold dispatch in Hs.
      rewrite lookup_launch_all_other in Hs by exact Hout.
      apply Hout, dispatch_order_due, in_due. eauto. }
  split; [exact Hdue|].
  unfold dispatch at 1. unfold dispatch_order. rewrite Hdue. reflexivity.
Qed.

Lemma due_from_all now : forall sched k,
  Forall (fun s => is_due now s = true) sched ->
  due_from k now sched = seq k (length sched).
Proof.
  induction sched as [|s rest IH]; intros k H; [reflexivity|].
  cbn [due_from length seq]. rewrite (Forall_inv H).
  now rewrite (IH (S k) (Forall_inv_tail H)).
Qed.

Lemma sorted_equal_keys key : forall l,
  (forall x y, In x l -> In y l -> stamp_ltb (key y) (key x) = false) ->
  sorted key l = l.
Proof.
  induction l as [|x rest IH]; intros H; [reflexivity|].
  cbn [sorted fold_right]. fold (sorted key rest).
  rewrite IH by (intros u v Hu Hv; apply H; now right).
  destruct rest as [|y rest']; [reflexivity|]. cbn [insert_by].
  now rewrite (H x y (or_introl eq_refl) (or_intror (or_introl eq_refl))).
Qed.

Lemma build_schedule_fresh doms t0 s :
  In s (build_schedule doms t0) -> next s = Finite t0 /\ running s = false.
Proof.
  unfold build_schedule. intros H. apply in_flat_map in H as (d & _ & Hs).
  apply in_map_iff in Hs as (sc & <- & _). now split.
Qed.

Lemma first_dispatch_order a t0 now :
  (t0 <= now)%Q ->
  dispatch_order now (build_schedule (domains a) t0)
  = seq 0 (2 * length (domains a)).
Proof.
  intros Hle. set (sched := build_schedule (domains a) t0).
  assert (Hkey : forall i, (i < length sched)%nat -> key_of sched i = Finite t0).
  { intros i Hi. unfold key_of.
    destruct (lookup_lt_is_Some_2 _ _ Hi) as (s & Hs). rewrite Hs.
    apply (build_schedule_fresh (domains a) t0), list_elem_of_In.
    apply list_elem_of_lookup. eauto. }
  rewrite <- (length_build_schedule (domains a) t0). fold sched.
  unfold dispatch_order, due. rewrite due_from_all.
  - apply sorted_equal_keys. intros x y Hx Hy.
    apply in_seq in Hx. apply in_seq in Hy. rewrite !Hkey by lia. simpl.
    apply negb_false_iff, Qle_bool_iff, Qle_refl.
  - apply List.Forall_forall. intros s Hs.
    destruct (build_schedule_fresh _ _ _ Hs) as [Hn Hr].
    unfold is_due. rewrite Hn, Hr. simpl. now apply Qle_bool_iff.
Qed.

(** ** What a run keeps *)

Lemma static_alter (f : task -> task) : forall l i,
  (forall x, static (f x) = static x) ->
  map static (alter f i l) = map static l.
Proof.
  induction l as [|x rest IH]; intros i Hf; [reflexivity|].
  destruct i as [|i]; simpl; [now rewrite Hf|]. f_equal. exact (IH i Hf).
Qed.

Lemma static_launch_scan a i st :
  map static (schedule (launch_scan a i st)) = map static (schedule st).
Proof.
  rewrite schedule_launch_scan. now rewrite !static_alter.
Qed.

Lemma static_launch_all a : forall l st,
  map static (schedule (fold_left (fun st' i => launch_scan a i st') l st))
  = map static (schedule st).
Proof.
  induction l as [|i rest IH]; intros st; cbn [fold_left]; [reflexivity|].
  now rewrite IH, static_launch_scan.
Qed.

Lemma static_complete i r t st :
  map static (schedule (complete i r t st)) = map static (schedule st).
Proof.
  unfold complete. rewrite schedule_on_done.
  assert (Hre : map static (schedule (reschedule i t (set_callbacks (remove_first i) st)))
                = map static (schedule st)).
  { unfold reschedule. simpl. now rewrite !static_alter. }
  change (schedule (set_callbacks (remove_first i) st)) with (schedule st).
  destruct (schedule st !! i); [|reflexivity].
  destruct r; [exact Hre|reflexivity|exact Hre].
Qed.

Lemma static_step a st st' :
  step a st st' -> map static (schedule st') = map static (schedule st).
Proof.
  intros H. destruct H as [now st _|i s st _ _|i r t st _].
  - apply static_launch_all.
  - apply static_launch_scan.
  - apply static_complete.
Qed.

(** X9: Through a whole run the schedule keeps its length, and every task its
    domain, scan name, arguments and period: launches and callbacks write
    [next] and [running] only. *)
Theorem static_fields_fixed :
  forall (a : cli_args) (t0 : Q) (st : state),
    reachable a t0 st ->
    map static (schedule st) = map static (build_schedule (domains a) t0)
    /\ length (schedule st) = (2 * length (domains a))%nat.
Proof.
  intros a t0 st H.
  assert (Hmap : map static (schedule st)
                 = map static (build_schedule (domains a) t0)).
  { induction H as [|st st' _ IH Hstep]; [reflexivity|].
    now rewrite (static_step a st st' Hstep). }
  split; [exact Hmap|].
  rewrite <- (length_map static), Hmap, length_map.
  apply length_build_schedule.
Qed.

Lemma static_fields_fixed_witness :
  reachable demo_args 0 demo_waiting
  /\ map static (schedule demo_waiting)
     = map static (build_schedule (domains demo_args) 0).
Proof.
  split; [apply demo_waiting_reachable|].
  exact (proj1 (static_fields_fixed demo_args 0 demo_waiting demo_waiting_reachable)).
Defined.

(** X10: At no point of a run does a task have two executions in flight, and the
    executions in flight are never more than the tasks. *)
Theorem in_flight_unique :
  forall (a : cli_args) (t0 : Q) (st : state),
    reachable a t0 st ->
    List.NoDup (callbacks st)
    /\ (forall i, In i (callbacks st) -> (i < length (schedule st))%nat)
    /\ (length (callbacks st) <= length (schedule st))%nat.
Proof.
  intros a t0 st H.
  pose proof (reachable_consistent a t0 st H) as Hc.
  assert (Hrange : forall i, In i (callbacks st) -> (i < length (schedule st))%nat).
  { intros i Hi. destruct (in_flight_running st Hc i Hi) as (s & Hs & _).
    apply lookup_lt_is_Some_1. eauto. }
  split; [apply (callbacks_nodup st Hc)|]. split; [exact Hrange|].
  assert (Hincl : incl (callbacks st) (seq 0 (length (schedule st)))).
  { intros i Hi. apply in_seq. specialize (Hrange i Hi). lia. }
  pose proof (NoDup_incl_length (callbacks_nodup st Hc) Hincl) as Hlen.
  now rewrite List.length_seq in Hlen.
Qed.

Lemma in_flight_unique_witness :
  reachable demo_args 0 demo_launched
  /\ List.NoDup (callbacks demo_launched).
Proof.
  split; [apply demo_launched_reachable|].
  exact (proj1 (in_flight_unique demo_args 0 demo_launched demo_launched_reachable)).
Defined.

(** X11: After a callback with any outcome but the not-found one, at clock
    reading [t], the task is due again exactly from [t] plus its period on,
    never earlier. *)
Theorem due_again_after_period :
  forall (i : nat) (s : task) (st : state) (r : fut_result) (t now : Q),
    schedule st !! i = Some s ->
    r <> RaisedFileNotFound ->
    In i (due now (schedule (on_done i r t st)))
    <-> (t + inject_Z (period s) <= now)%Q.
Proof.
  intros i s st r t now Hs Hr.
  assert (Hlook : schedule (on_done i r t st) !! i
                  = Some (mk_task (domain s) (name s) (args s) (period s)
                                  (Finite (t + inject_Z (period s))) false)).
  { rewrite schedule_on_done, Hs.
    destruct r; [|contradiction|]; now apply lookup_reschedule_eq. }
  rewrite in_due. split.
  - intros (s' & Hs' & Hd). rewrite Hlook in Hs'. inversion Hs'. subst s'.
    unfold is_due in Hd. simpl in Hd. now apply Qle_bool_iff.
  - intros Hle. eexists. split; [exact Hlook|].
    unfold is_due. simpl. now apply Qle_bool_iff.
Qed.

Lemma due_again_after_period_witness :
  schedule demo_launched !! 1%nat
  = Some (mk_task "example.com" "port_scan"
                  ["-p"; "subdomain-enum"; "-m"; "portscan"] 1800 Infinite true)
  /\ demo_failed_run <> RaisedFileNotFound
  /\ ~ In 1%nat (due 1801 (schedule (on_done 1 demo_failed_run 2 demo_launched))).
Proof.
  split; [reflexivity|]. split; [discriminate|].
  intros H.
  apply (due_again_after_period 1
           (mk_task "example.com" "port_scan"
                    ["-p"; "subdomain-enum"; "-m"; "portscan"] 1800 Infinite true)
           demo_launched demo_failed_run 2 1801 eq_refl) in H.
  - vm_compute in H. now apply H.
  - discriminate.
Defined.

(** ** The stop flag, once more *)

Lemma stop_on_done i r t st :
  stop_event (on_done i r t st)
  = match schedule st !! i, r with
    | Some _, RaisedFileNotFound => true
    | _, _ => stop_event st
    end.
Proof.
  unfold on_done. destruct (schedule st !! i); [|reflexivity].
  destruct r as [ok d proc| |e]; try reflexivity.
  destruct (negb ok); reflexivity.
Qed.

(** X12: The stop flag is raised by one thing only, the not-found path of a
    callback, and nothing lowers it again. *)
Theorem stop_flag_one_way :
  forall (a : cli_args) (st st' : state),
    step a st st' ->
    (stop_event st = true -> stop_event st' = true)
    /\ (stop_event st = false -> stop_event st' = true ->
        exists i t, In i (callbacks st)
                    /\ st' = complete i RaisedFileNotFound t st).
Proof.
  intros a st st' H. destruct H as [now st _|i s st _ _|i r t st Hi].
  - unfold dispatch. rewrite stop_launch_all. split; [auto|congruence].
  - rewrite stop_launch_scan. split; [auto|congruence].
  - unfold complete. rewrite stop_on_done.
    change (schedule (set_callbacks (remove_first i) st)) with (schedule st).
    change (stop_event (set_callbacks (remove_first i) st)) with (stop_event st).
    destruct (schedule st !! i); [|split; [auto|congruence]].
    destruct r; split; auto; try congruence.
    intros _ _. exists i, t. split; [exact Hi|reflexivity].
Qed.

Lemma stop_flag_one_way_witness :
  step demo_args demo_waiting (complete 1 RaisedFileNotFound 1 demo_waiting)
  /\ exists i t, In i (callbacks demo_waiting)
                 /\ complete 1 RaisedFileNotFound 1 demo_waiting
                    = complete i RaisedFileNotFound t demo_waiting.
Proof.
  assert (H : step demo_args demo_waiting
                   (complete 1 RaisedFileNotFound 1 demo_waiting)).
  { apply step_done. vm_compute. auto. }
  split; [exact H|].
  exact (proj2 (stop_flag_one_way demo_args _ _ H) eq_refl eq_refl).
Defined.

(** ** After the not-found path *)

Lemma stuck_step a i st st' :
  step a st st' ->
  reserved i st -> ~ In i (callbacks st) ->
  reserved i st' /\ ~ In i (callbacks st').
Proof.
  intros Hstep Hres Hout.
  destruct Hstep as [now st _|j s st Hs Hr|j r t st Hj].
  - assert (Hno : ~ In i (dispatch_order now (schedule st))).
    { rewrite dispatch_order_due. now apply reserved_not_due. }
    split.
    + destruct Hres as (s & Hs & H). exists s. split; [|exact H].
      unfold dispatch. now rewrite lookup_launch_all_other.
    + unfold dispatch. rewrite callbacks_launch_all. intros H.
      apply in_app_or in H as [H|H]; contradiction.
  - assert (Hne : j <> i).
    { intros ->. destruct Hres as (s' & Hs' & Hr' & _). congruence. }
    split.
    + now apply reserved_launch_scan.
    + rewrite callbacks_launch_scan. intros H.
      apply in_app_or in H as [H|[H|[]]]; [contradiction|congruence].
  - assert (Hne : j <> i) by (intros ->; contradiction).
    split.
    + destruct Hres as (s & Hs & H). exists s. split; [|exact H].
      unfold complete. rewrite schedule_on_done.
      change (schedule (set_callbacks (remove_first j) st)) with (schedule st).
      destruct (schedule st !! j); [|exact Hs].
      destruct r; try exact Hs; now rewrite lookup_reschedule_ne.
    + unfold complete. rewrite callbacks_on_done. intros H.
      apply remove_first_in in H. contradiction.
Qed.

(** X14: A task whose callback took the not-found path is never launched again:
    whatever ticks and callbacks follow, it stays marked running with [next]
    at infinity, is never selected as due and gets no further callback. *)
Theorem not_found_task_is_retired :
  forall (a : cli_args) (t0 t : Q) (st st' : state) (i : nat),
    reachable a t0 st ->
    In i (callbacks st) ->
    steps a (complete i RaisedFileNotFound t st) st' ->
    reserved i st'
    /\ ~ In i (callbacks st')
    /\ forall now, ~ In i (dispatch_order now (schedule st')).
Proof.
  intros a t0 t st st' i Hreach Hi Hsteps.
  pose proof (reachable_consistent a t0 st Hreach) as Hc.
  assert (Hstart : reserved i (complete i RaisedFileNotFound t st)
                   /\ ~ In i (callbacks (complete i RaisedFileNotFound t st))).
  { split.
    - destruct (in_flight_reserved st i Hc Hi) as (s & Hs & H).
      exists s. split; [|exact H].
      unfold complete. rewrite schedule_on_done.
      change (schedule (set_callbacks (remove_first i) st)) with (schedule st).
      now rewrite Hs.
    - unfold complete. rewrite callbacks_on_done.
      apply remove_first_gone, (callbacks_nodup st Hc). }
  assert (Hinv : reserved i st' /\ ~ In i (callbacks st')).
  { induction Hsteps as [|st1 st2 st3 _ IH Hstep]; [exact Hstart|].
    destruct (IH Hstart) as [Hres Hout].
    now apply (stuck_step a i st2 st3). }
  destruct Hinv as [Hres Hout]. split; [exact Hres|]. split; [exact Hout|].
  intros now. rewrite dispatch_order_due. now apply reserved_not_due.
Qed.

Lemma not_found_task_is_retired_witness :
  reachable demo_args 0 demo_waiting
  /\ In 1%nat (callbacks demo_waiting)
  /\ ~ In 1%nat (dispatch_order 100000
                   (schedule (launch_scan demo_args 0
                                (complete 1 RaisedFileNotFound 1 demo_waiting)))).
Proof.
  split; [apply demo_waiting_reachable|].
  assert (Hin : In 1%nat (callbacks demo_waiting)) by (vm_compute; auto).
  split; [exact Hin|].
  apply (not_found_task_is_retired demo_args 0 1 demo_waiting _ 1%nat
           demo_waiting_reachable Hin).
  eapply steps_step; [apply steps_refl|].
  apply (step_launch demo_args 0
           (mk_task "example.com" "web_probe" ["-p"; "web-basic"] 900
                    (Finite ((1 # 10) + inject_Z 900)) false)).
  - reflexivity.
  - reflexivity.
Defined.

(** ** The argument of [time.sleep] *)

Lemma sleep_for_finite now st :
  consistent st -> exists d, sleep_for now (schedule st) = Finite d.
Proof.
  intros Hc. pose proof (tasks_ok st Hc) as Hok.
  rewrite List.Forall_forall in Hok. unfold sleep_for.
  destruct (next_times (schedule st)) as [|x xs] eqn:Hnt; [eauto|].
  pose proof (py_min_in xs x) as Hin. rewrite <- Hnt in Hin.
  apply in_next_times in Hin as (s & Hs & Hr & Hn).
  specialize (Hok s Hs). unfold exactly_one in Hok. rewrite Hr in Hok.
  destruct (next s) as [m|] eqn:Hm; [|discriminate].
  rewrite <- Hn. simpl. unfold py_max.
  destruct (stamp_ltb (Finite (m - now)) (Finite floor_interval)); eauto.
Qed.

Lemma consistent_run_callbacks : forall l st,
  consistent st -> consistent (run_callbacks l st).
Proof.
  unfold run_callbacks.
  induction l as [|[[i r] t] rest IH]; intros st Hc; [exact Hc|].
  cbn [fold_left]. apply IH. unfold run_callback.
  destruct (existsb (Nat.eqb i) (callbacks st)) eqn:E; [|exact Hc].
  apply consistent_complete; [exact Hc|].
  apply existsb_exists in E as (j & Hj & Heq).
  apply Nat.eqb_eq in Heq. now subst j.
Qed.

(** X15: The loop never hands [math.inf] to [time.sleep]: in a run from startup,
    whatever the callbacks do during the sleeps, the computed delay is a
    number of seconds at every tick. *)
Theorem sleep_argument_always_finite :
  forall (a : cli_args) (t0 : Q) (st : state) (env : list interval) (clock : Q),
    reachable a t0 st ->
    reason (main_loop a clock env st) <> SleepRaised.
Proof.
  intros a t0 st env clock Hreach.
  pose proof (reachable_consistent a t0 st Hreach) as Hc. clear Hreach.
  revert clock st Hc.
  induction env as [|iv env IH]; intros clock st Hc; cbn [main_loop].
  - destruct (stop_event st); discriminate.
  - destruct (stop_event st); [discriminate|].
    pose proof (consistent_dispatch a clock st Hc) as Hc1.
    destruct (sleep_for_finite clock _ Hc1) as (d & ->).
    destruct (interrupt iv); [discriminate|].
    apply IH. now apply consistent_run_callbacks.
Qed.

Lemma sleep_argument_always_finite_witness :
  reachable demo_args 0 demo_waiting
  /\ reason (main_loop demo_args (1 # 2)
               [mk_interval [(1%nat, demo_failed_run, 2%Q)] None;
                mk_interval [] None]
               demo_waiting) <> SleepRaised.
Proof.
  split; [apply demo_waiting_reachable|].
  apply (sleep_argument_always_finite demo_args 0 demo_waiting).
  apply demo_waiting_reachable.
Defined.

(** ** The commands handed to the pool *)

Lemma lookup_static (l l' : list task) i s :
  map static l' = map static l -> l !! i = Some s ->
  exists s', l' !! i = Some s' /\ static s' = static s.
Proof.
  intros Hmap Hs.
  assert (H : map static l' !! i = Some (static s)).
  { rewrite Hmap. change (map static l) with (static <$> l).
    now rewrite list_lookup_fmap, Hs. }
  change (map static l') with (static <$> l') in H.
  rewrite list_lookup_fmap in H.
  destruct (l' !! i) as [s'|]; [|discriminate].
  exists s'. split; [reflexivity|]. simpl in H. congruence.
Qed.

Lemma launch_cmd_static a s s' : static s' = static s -> launch_cmd a s' = launch_cmd a s.
Proof.
  unfold static, launch_cmd. intros H. injection H as H1 _ H3 _.
  now rewrite H1, H3.
Qed.

Lemma submitted_ls_log a i st : submitted (ls_log a i st) = submitted st.
Proof. unfold ls_log. now destruct (schedule st !! i). Qed.

Lemma submitted_launch_scan a i st :
  submitted (launch_scan a i st)
  = match schedule st !! i with
    | Some s => (submitted st ++ [(i, launch_cmd a s)])%list
    | None => submitted st
    end.
Proof.
  unfold launch_scan, ls_attach, ls_reserve, ls_submit. simpl.
  rewrite schedule_ls_log.
  destruct (schedule st !! i); simpl; now rewrite submitted_ls_log.
Qed.

Lemma submitted_complete i r t st : submitted (complete i r t st) = submitted st.
Proof.
  unfold complete, on_done.
  change (schedule (set_callbacks (remove_first i) st)) with (schedule st).
  destruct (schedule st !! i); [|reflexivity].
  destruct r as [ok d proc| |e]; try reflexivity.
  destruct (negb ok); reflexivity.
Qed.

Section Commands.

Variable a : cli_args.

Lemma commands_match_static st st' :
  map static (schedule st') = map static (schedule st) ->
  submitted st' = submitted st ->
  commands_match a st -> commands_match a st'.
Proof.
  intros Hmap Hsub H i cmd Hin. rewrite Hsub in Hin.
  destruct (H i cmd Hin) as (s & Hs & ->).
  destruct (lookup_static _ _ i s Hmap Hs) as (s' & Hs' & Hst).
  exists s'. split; [exact Hs'|]. symmetry. now apply launch_cmd_static.
Qed.

Lemma commands_match_launch_scan i st : commands_match a st -> commands_match a (launch_scan a i st).
Proof.
  intros H j cmd Hin. rewrite submitted_launch_scan in Hin.
  assert (Hold : In (j, cmd) (submitted st) ->
                 exists s, schedule (launch_scan a i st) !! j = Some s
                           /\ cmd = launch_cmd a s).
  { intros Hj. destruct (H j cmd Hj) as (s & Hs & ->).
    destruct (lookup_static _ _ j s (static_launch_scan a i st) Hs)
      as (s' & Hs' & Hst).
    exists s'. split; [exact Hs'|]. symmetry. now apply launch_cmd_static. }
  destruct (schedule st !! i) as [s|] eqn:Hs; [|now apply Hold].
  apply in_app_or in Hin as [Hin|[Heq|[]]]; [now apply Hold|].
  inversion Heq. subst j cmd.
  destruct (lookup_static _ _ i s (static_launch_scan a i st) Hs)
    as (s' & Hs' & Hst).
  exists s'. split; [exact Hs'|]. symmetry. now apply launch_cmd_static.
Qed.

Lemma commands_match_launch_all : forall l st,
  commands_match a st -> commands_match a (fold_left (fun st' i => launch_scan a i st') l st).
Proof.
  induction l as [|i rest IH]; intros st H; cbn [fold_left]; [exact H|].
  now apply IH, commands_match_launch_scan.
Qed.

Lemma reachable_commands_match t0 st :
  reachable a t0 st -> commands_match a st.
Proof.
  intros Hreach. induction Hreach as [|st st' _ IH Hstep].
  - intros j c [].
  - destruct Hstep as [now st _|j s st _ _|j r t st _].
    + now apply commands_match_launch_all.
    + now apply commands_match_launch_scan.
    + apply (commands_match_static st); [apply static_complete| |exact IH].
      apply submitted_complete.
Qed.

(** X16: Every command handed to the pool in a run is the command of the task it
    was submitted for: sudo and the scanner, the task's domain as target, the
    HTTP output module with the given URL and the fixed credentials, then the
    arguments of the task's scan. *)
Theorem submitted_commands_match_tasks :
  forall (t0 : Q) (st : state) (i : nat) (cmd : list string),
    reachable a t0 st ->
    In (i, cmd) (submitted st) ->
    exists s,
      schedule st !! i = Some s
      /\ cmd = ([ "sudo"; "/home/kali/.local/bin/bbot"; "-t"; domain s;
                  "-om"; "http"; "-c"; ("modules.http.url=" ++ api a)%string;
                  "modules.http.siem_friendly=true";
                  "modules.http.username=user1";
                  "modules.http.password=password"; "--yes" ] ++ args s)%list.
Proof.
  intros t0 st i cmd Hreach Hin.
  destruct (reachable_commands_match t0 st Hreach i cmd Hin) as (s & Hs & ->).
  exists s. split; [exact Hs|]. reflexivity.
Qed.

End Commands.

Lemma submitted_commands_match_tasks_witness :
  reachable demo_args 0 demo_waiting
  /\ In (1%nat, launch_cmd demo_args
                  (mk_task "example.com" "port_scan"
                           ["-p"; "subdomain-enum"; "-m"; "portscan"] 1800
                           Infinite true))
        (submitted demo_waiting)
  /\ exists s, schedule demo_waiting !! 1%nat = Some s.
Proof.
  split; [apply demo_waiting_reachable|].
  assert (Hin : In (1%nat, launch_cmd demo_args
                             (mk_task "example.com" "port_scan"
                                      ["-p"; "subdomain-enum"; "-m"; "portscan"]
                                      1800 Infinite true))
                   (submitted demo_waiting)).
  { vm_compute. auto. }
  split; [exact Hin|].
  destruct (submitted_commands_match_tasks demo_args 0 demo_waiting 1%nat _
              demo_waiting_reachable Hin) as (s & Hs & _).
  exists s. exact Hs.
Defined.

(** ** A domain listed twice *)

Lemma lookup_build_schedule_even doms now : forall k d,
  doms !! k = Some d ->
  exists s, build_schedule doms now !! (2 * k)%nat = Some s
            /\ static s = (d, "web_probe", ["-p"; "web-basic"], 900%Z).
Proof.
  induction doms as [|d0 rest IH]; intros [|k] d Hk; try discriminate.
  - inversion Hk. subst d0. eexists. split; reflexivity.
  - replace (2 * S k)%nat with (S (S (2 * k))) by lia. apply (IH k d Hk).
Qed.

(** * The assignments one by one *)

Lemma remove_first_perm i (l : list nat) :
  In i l -> Permutation (i :: remove_first i l) l.
Proof.
  induction l as [|j rest IH]; intros Hi; [destruct Hi|].
  simpl. destruct (Nat.eqb_spec i j) as [->|Hne]; [reflexivity|].
  destruct Hi as [Heq|Hi]; [congruence|].
  rewrite perm_swap. now rewrite (IH Hi).
Qed.

Lemma remove_first_other i j (l : list nat) :
  j <> i -> In j l -> In j (remove_first i l).
Proof.
  intros Hne. induction l as [|k rest IH]; intros Hj; [destruct Hj|].
  simpl. destruct (Nat.eqb_spec i k) as [->|Hik].
  - destruct Hj as [Heq|Hj]; [congruence|exact Hj].
  - destruct Hj as [->|Hj]; [now left|right; now apply IH].
Qed.

Lemma alter_lookup_inv (f : task -> task) (l : list task) i j s' :
  alter f i l !! j = Some s' ->
  exists s, l !! j = Some s /\ ((j = i /\ s' = f s) \/ (j <> i /\ s' = s)).
Proof.
  destruct (Nat.eq_dec i j) as [->|Hne].
  - rewrite list_lookup_alter_eq. destruct (l !! j) as [s|]; [|discriminate].
    intros H. inversion H. exists s. split; [reflexivity|]. now left.
  - rewrite list_lookup_alter_ne by exact Hne. intros H.
    exists s'. split; [exact H|]. right. split; [congruence|reflexivity].
Qed.

Lemma alter_lookup_same (f : task -> task) (l : list task) i s :
  l !! i = Some s -> alter f i l !! i = Some (f s).
Proof. intros H. now rewrite list_lookup_alter_eq, H. Qed.

Lemma schedule_report i r st : schedule (report i r st) = schedule st.
Proof.
  unfold report. destruct (schedule st !! i); [|reflexivity].
  destruct r as [ok d proc| |e]; try reflexivity.
  destruct (negb ok); reflexivity.
Qed.

Lemma callbacks_report i r st : callbacks (report i r st) = callbacks st.
Proof.
  unfold report. destruct (schedule st !! i); [|reflexivity].
  destruct r as [ok d proc| |e]; try reflexivity.
  destruct (negb ok); reflexivity.
Qed.

(** [on_done] is its report followed by the two assignments. *)
Lemma on_done_in_three_parts i r t st :
  r <> RaisedFileNotFound ->
  on_done i r t st
  = assign_running false i (assign_next_period i t (report i r st)).
Proof.
  intros Hr. unfold on_done, report.
  destruct (schedule st !! i) as [s|] eqn:Hs.
  - destruct r as [ok d proc| |e]; [|congruence|]; reflexivity.
  - unfold assign_running, assign_next_period, set_schedule. simpl.
    destruct st as [sched stop sub cb lg out err]. simpl in *.
    f_equal. rewrite list_alter_alter_eq.
    symmetry. clear -Hs. revert i Hs.
    induction sched as [|x rest IH]; intros [|i] Hs; try reflexivity;
      try discriminate.
    simpl. f_equal. now apply IH.
Qed.

(** [launch_scan] is its four statements. *)
Lemma launch_scan_in_four_parts a i st :
  launch_scan a i st
  = ls_attach i (assign_next_never i
                   (assign_running true i (ls_submit a i (ls_log a i st)))).
Proof. reflexivity. Qed.

Section Fine.

Variable a : cli_args.

Lemma fine_consistent_init t0 :
  fine_consistent (mk_threads (initial_state a t0) None [] []).
Proof.
  constructor; simpl.
  - intros i s Hs _.
    apply list_elem_of_lookup_2, list_elem_of_In,
      (build_schedule_fresh (domains a) t0) in Hs.
    destruct Hs as [Hn _]. now rewrite Hn.
  - intros i s Hs Hr.
    apply list_elem_of_lookup_2, list_elem_of_In,
      (build_schedule_fresh (domains a) t0) in Hs. destruct Hs. congruence.
  - intros i [].
  - constructor.
  - intros i [].
  - discriminate.
Qed.

Lemma busy_in_next_assigned th i : In i (next_assigned th) -> In i (busy th).
Proof. intros H. unfold busy. apply in_or_app. right. apply in_or_app. now right. Qed.

Lemma busy_in_reported th i : In i (reported th) -> In i (busy th).
Proof. intros H. unfold busy. apply in_or_app. right. apply in_or_app. now left. Qed.

Lemma busy_in_callbacks th i : In i (callbacks (shared th)) -> In i (busy th).
Proof. intros H. unfold busy. apply in_or_app. now left. Qed.

(** A statement that leaves the schedule alone and permutes, shrinks or
    extends the busy tasks by a task that is running. *)
Lemma fine_consistent_same_schedule th th' :
  fine_consistent th ->
  schedule (shared th') = schedule (shared th) ->
  (forall i, In i (busy th') ->
     In i (busy th)
     \/ exists s, schedule (shared th) !! i = Some s /\ running s = true) ->
  List.NoDup (busy th') ->
  (forall i, In i (next_assigned th') -> In i (next_assigned th)) ->
  (forall i, between_assignments th i -> between_assignments th' i) ->
  (forall i pc, launching th' = Some (i, pc) ->
     ~ In i (busy th')
     /\ exists s, schedule (shared th) !! i = Some s
        /\ match pc with
           | Submitted => running s = false
           | MarkedRunning => running s = true /\ is_finite (next s) = true
           | MarkedNever => running s = true /\ next s = Infinite
           end) ->
  fine_consistent th'.
Proof.
  intros Hc Hsched Hbusy Hnd Hna Hbetween Hlaunch.
  constructor; try rewrite Hsched.
  - apply (idle_has_time th Hc).
  - intros i s Hs Hr.
    destruct (running_is_never th Hc i s Hs Hr) as [H|H]; [now left|].
    right. now apply Hbetween.
  - intros i Hi. destruct (Hbusy i Hi) as [H|H]; [|exact H].
    now apply (busy_running th Hc).
  - exact Hnd.
  - intros i Hi. apply (next_assigned_has_time th Hc), Hna, Hi.
  - exact Hlaunch.
Qed.

(** A statement that assigns one field of task [i]. *)
Lemma fine_consistent_assign (f : task -> task) i s th th' :
  fine_consistent th ->
  schedule (shared th) !! i = Some s ->
  schedule (shared th') = alter f i (schedule (shared th)) ->
  Permutation (busy th') (busy th)
  \/ Permutation (busy th) (i :: busy th') ->
  (running (f s) = false -> is_finite (next (f s)) = true) ->
  (running (f s) = true -> next (f s) = Infinite \/ between_assignments th' i) ->
  (In i (busy th') -> running (f s) = true) ->
  (In i (next_assigned th') -> is_finite (next (f s)) = true) ->
  (forall j, j <> i -> In j (next_assigned th') -> In j (next_assigned th)) ->
  (forall j, j <> i -> between_assignments th j -> between_assignments th' j) ->
  (forall j pc, launching th' = Some (j, pc) ->
     ~ In j (busy th')
     /\ (j <> i -> launching th = Some (j, pc))
     /\ (j = i -> match pc with
                  | Submitted => running (f s) = false
                  | MarkedRunning => running (f s) = true /\ is_finite (next (f s)) = true
                  | MarkedNever => running (f s) = true /\ next (f s) = Infinite
                  end)) ->
  fine_consistent th'.
Proof.
  intros Hc Hs Hsched Hperm Hidle Hrun Hbusy Hna Hna' Hbetween Hlaunch.
  assert (Hsub : forall j, In j (busy th') -> In j (busy th)).
  { intros j Hj. destruct Hperm as [Hp|Hp].
    - now apply (Permutation_in _ Hp).
    - apply (Permutation_in _ (Permutation_sym Hp)). now right. }
  constructor; try rewrite Hsched.
  - intros j s' Hs' Hr.
    apply alter_lookup_inv in Hs' as (s0 & Hs0 & [[-> ->]|[Hne ->]]).
    + assert (s0 = s) by congruence. subst s0. now apply Hidle.
    + now apply (idle_has_time th Hc j).
  - intros j s' Hs' Hr.
    apply alter_lookup_inv in Hs' as (s0 & Hs0 & [[-> ->]|[Hne ->]]).
    + assert (s0 = s) by congruence. subst s0. now apply Hrun.
    + destruct (running_is_never th Hc j s0 Hs0 Hr) as [H|H]; [now left|].
      right. now apply Hbetween.
  - intros j Hj. destruct (Nat.eq_dec j i) as [->|Hne].
    + exists (f s). split; [now apply alter_lookup_same|now apply Hbusy].
    + destruct (busy_running th Hc j (Hsub j Hj)) as (s0 & Hs0 & Hr0).
      exists s0. split; [|exact Hr0]. rewrite list_lookup_alter_ne; congruence.
  - destruct Hperm as [Hp|Hp].
    + apply (Permutation_NoDup (Permutation_sym Hp)), (busy_nodup th Hc).
    + pose proof (Permutation_NoDup Hp (busy_nodup th Hc)) as Hnd.
      now apply NoDup_cons_iff in Hnd as [_ Hnd].
  - intros j Hj. destruct (Nat.eq_dec j i) as [->|Hne].
    + exists (f s). split; [now apply alter_lookup_same|now apply Hna].
    + destruct (next_assigned_has_time th Hc j (Hna' j Hne Hj)) as (s0 & Hs0 & H0).
      exists s0. split; [|exact H0]. rewrite list_lookup_alter_ne; congruence.
  - intros j pc Hj. destruct (Hlaunch j pc Hj) as (Hout & Hother & Hsame).
    split; [exact Hout|]. destruct (Nat.eq_dec j i) as [->|Hne].
    + exists (f s). split; [now apply alter_lookup_same|now apply Hsame].
    + destruct (launching_place th Hc j pc (Hother Hne)) as (_ & s0 & Hs0 & H0).
      exists s0. split; [|exact H0]. rewrite list_lookup_alter_ne; congruence.
Qed.

Lemma schedule_not_found i t st :
  schedule (complete i RaisedFileNotFound t st) = schedule st.
Proof.
  unfold complete. rewrite schedule_on_done.
  change (schedule (set_callbacks (remove_first i) st)) with (schedule st).
  now destruct (schedule st !! i).
Qed.

Lemma callbacks_complete i r t st :
  callbacks (complete i r t st) = remove_first i (callbacks st).
Proof. unfold complete. now rewrite callbacks_on_done. Qed.

Lemma busy_remove_callback th i rep na :
  In i (callbacks (shared th)) ->
  Permutation (i :: (remove_first i (callbacks (shared th)) ++ rep ++ na))
              (callbacks (shared th) ++ rep ++ na).
Proof.
  intros Hi. rewrite app_comm_cons. now rewrite (remove_first_perm i _ Hi).
Qed.

Lemma fine_consistent_step th th' :
  fine_consistent th -> fine_step a th th' -> fine_consistent th'.
Proof.
  intros Hc Hstep.
  destruct Hstep as [i s th Hl Hs Hr|i th Hl|i th Hl|i th Hl
                    |i t th Hi|i r th Hi Hr|i t th Hi|i th Hi].
  - (* submit *)
    assert (Hsched : schedule (ls_submit a i (ls_log a i (shared th)))
                     = schedule (shared th))
      by now rewrite schedule_ls_submit, schedule_ls_log.
    assert (Hbusy : busy (mk_threads (ls_submit a i (ls_log a i (shared th)))
                                     (Some (i, Submitted)) (reported th)
                                     (next_assigned th)) = busy th).
    { unfold busy. simpl. now rewrite callbacks_ls_submit, callbacks_ls_log. }
    apply (fine_consistent_same_schedule th); try assumption.
    + intros j Hj. left. now rewrite Hbusy in Hj.
    + rewrite Hbusy. apply (busy_nodup th Hc).
    + auto.
    + intros j [H|H]; [congruence|now right].
    + intros j pc Hj. simpl in Hj. inversion Hj. subst j pc.
      rewrite Hbusy. split; [|eauto].
      intros Hin. destruct (busy_running th Hc i Hin) as (s' & Hs' & Hr').
      congruence.
  - (* line 138 *)
    destruct (launching_place th Hc i Submitted Hl) as (Hout & s & Hs & Hr).
    apply (fine_consistent_assign (set_running true) i s th).
    + exact Hc.
    + exact Hs.
    + reflexivity.
    + left. reflexivity.
    + discriminate.
    + intros _. right. now left.
    + reflexivity.
    + intros Hin. destruct Hout. now apply busy_in_next_assigned.
    + auto.
    + intros j Hne [H|H]; [congruence|now right].
    + intros j pc Hj. simpl in Hj. inversion Hj. subst j pc.
      split; [exact Hout|]. split; [congruence|]. intros _.
      split; [reflexivity|]. simpl. exact (idle_has_time th Hc i s Hs Hr).
  - (* line 139 *)
    destruct (launching_place th Hc i MarkedRunning Hl)
      as (Hout & s & Hs & Hr & _).
    apply (fine_consistent_assign (set_next Infinite) i s th).
    + exact Hc.
    + exact Hs.
    + reflexivity.
    + left. reflexivity.
    + simpl. congruence.
    + intros _. now left.
    + intros _. exact Hr.
    + intros Hin. destruct Hout. now apply busy_in_next_assigned.
    + auto.
    + intros j Hne [H|H]; [congruence|now right].
    + intros j pc Hj. simpl in Hj. inversion Hj. subst j pc.
      split; [exact Hout|]. split; [congruence|]. intros _. now split.
  - (* line 140 *)
    destruct (launching_place th Hc i MarkedNever Hl) as (Hout & s & Hs & Hr & Hn).
    assert (Hperm : Permutation
                      (busy (mk_threads (ls_attach i (shared th)) None
                                        (reported th) (next_assigned th)))
                      (i :: busy th)).
    { unfold busy. simpl. rewrite <- app_assoc. simpl.
      now rewrite <- Permutation_middle. }
    apply (fine_consistent_same_schedule th); try assumption; try reflexivity.
    + intros j Hj. apply (Permutation_in _ Hperm) in Hj as [<-|Hj]; eauto.
    + apply (Permutation_NoDup (Permutation_sym Hperm)).
      constructor; [exact Hout|apply (busy_nodup th Hc)].
    + auto.
    + intros j [H|H]; [congruence|now right].
    + discriminate.
  - (* lines 112-113 *)
    assert (Hperm : Permutation
                      (i :: busy (mk_threads (complete i RaisedFileNotFound t (shared th))
                                             (launching th) (reported th)
                                             (next_assigned th)))
                      (busy th)).
    { unfold busy. simpl. rewrite callbacks_complete.
      now apply busy_remove_callback. }
    assert (Hsub : forall j,
               In j (busy (mk_threads (complete i RaisedFileNotFound t (shared th))
                                      (launching th) (reported th)
                                      (next_assigned th))) ->
               In j (busy th)).
    { intros j Hj. apply (Permutation_in _ Hperm). now right. }
    apply (fine_consistent_same_schedule th); try assumption.
    + apply schedule_not_found.
    + intros j Hj. left. now apply Hsub.
    + pose proof (Permutation_NoDup (Permutation_sym Hperm) (busy_nodup th Hc)) as H.
      now apply NoDup_cons_iff in H as [_ H].
    + auto.
    + intros j [H|H]; [now left|now right].
    + intros j pc Hj. simpl in Hj.
      destruct (launching_place th Hc j pc Hj) as (Hout & H).
      split; [|exact H]. intros Hin. apply Hout, Hsub, Hin.
  - (* the report of a callback *)
    assert (Hperm : Permutation
                      (busy (mk_threads
                               (report i r (set_callbacks (remove_first i) (shared th)))
                               (launching th) (i :: reported th) (next_assigned th)))
                      (busy th)).
    { unfold busy. simpl. rewrite callbacks_report. simpl.
      rewrite <- Permutation_middle. now apply busy_remove_callback. }
    apply (fine_consistent_same_schedule th); try assumption.
    + simpl. now rewrite schedule_report.
    + intros j Hj. left. now apply (Permutation_in _ Hperm).
    + apply (Permutation_NoDup (Permutation_sym Hperm)), (busy_nodup th Hc).
    + auto.
    + intros j [H|H]; [now left|now right].
    + intros j pc Hj. simpl in Hj.
      destruct (launching_place th Hc j pc Hj) as (Hout & H).
      split; [|exact H]. intros Hin. apply Hout.
      now apply (Permutation_in _ Hperm).
  - (* lines 117 and 135 *)
    pose proof (busy_in_reported th i Hi) as Hbusy.
    destruct (busy_running th Hc i Hbusy) as (s & Hs & Hr).
    assert (Hperm : Permutation
                      (busy (mk_threads (assign_next_period i t (shared th))
                                        (launching th) (remove_first i (reported th))
                                        (i :: next_assigned th)))
                      (busy th)).
    { unfold busy. simpl. rewrite <- Permutation_middle.
      rewrite app_comm_cons. now rewrite (remove_first_perm i _ Hi). }
    apply (fine_consistent_assign
             (fun s' => set_next (Finite (t + inject_Z (period s'))) s') i s th).
    + exact Hc.
    + exact Hs.
    + reflexivity.
    + now left.
    + simpl. congruence.
    + intros _. right. right. now left.
    + intros _. exact Hr.
    + reflexivity.
    + intros j Hne [H|H]; [congruence|exact H].
    + intros j Hne [H|H]; [now left|right; now right].
    + intros j pc Hj. simpl in Hj.
      destruct (launching_place th Hc j pc Hj) as (Hout & _).
      split; [|split].
      * intros Hin. apply Hout. now apply (Permutation_in _ Hperm).
      * auto.
      * intros ->. contradiction.
  - (* lines 118 and 136 *)
    pose proof (busy_in_next_assigned th i Hi) as Hbusy.
    destruct (next_assigned_has_time th Hc i Hi) as (s & Hs & Hn).
    assert (Hperm : Permutation (busy th)
                      (i :: busy (mk_threads (assign_running false i (shared th))
                                             (launching th) (reported th)
                                             (remove_first i (next_assigned th))))).
    { unfold busy. simpl. rewrite !Permutation_middle.
      now rewrite (remove_first_perm i _ Hi). }
    assert (Hgone : ~ In i (busy (mk_threads (assign_running false i (shared th))
                                             (launching th) (reported th)
                                             (remove_first i (next_assigned th))))).
    { pose proof (Permutation_NoDup Hperm (busy_nodup th Hc)) as H.
      now apply NoDup_cons_iff in H as [H _]. }
    apply (fine_consistent_assign (set_running false) i s th).
    + exact Hc.
    + exact Hs.
    + reflexivity.
    + now right.
    + intros _. exact Hn.
    + discriminate.
    + intros Hin. contradiction.
    + intros _. exact Hn.
    + intros j Hne Hj. now apply remove_first_in in Hj.
    + intros j Hne [H|H]; [now left|right; now apply remove_first_other].
    + intros j pc Hj. simpl in Hj.
      destruct (launching_place th Hc j pc Hj) as (Hout & _).
      split; [|split].
      * intros Hin. apply Hout, (Permutation_in _ (Permutation_sym Hperm)).
        now right.
      * auto.
      * intros ->. contradiction.
Qed.

Lemma fine_reachable_consistent t0 th :
  fine_reachable a t0 th -> fine_consistent th.
Proof.
  induction 1 as [|th th' _ IH Hstep]; [apply fine_consistent_init|].
  now apply fine_consistent_step with th.
Qed.

End Fine.

(** Every state at the end of a launch or of a callback is a state of the
    threads in which none is between two assignments. *)
Lemma launch_is_four_statements a i s th :
  launching th = None -> reported th = [] -> next_assigned th = [] ->
  schedule (shared th) !! i = Some s -> running s = false ->
  forall t0, fine_reachable a t0 th ->
             fine_reachable a t0 (mk_threads (launch_scan a i (shared th)) None [] []).
Proof.
  intros Hl Hrep Hna Hs Hr t0 Hth.
  rewrite launch_scan_in_four_parts.
  pose proof (fine_submit a i s th Hl Hs Hr) as H1.
  rewrite Hrep, Hna in H1.
  eapply fine_next; [eapply fine_next; [eapply fine_next;
    [eapply fine_next; [exact Hth|exact H1]|]|]|].
  - apply (fine_mark_running a i). reflexivity.
  - apply (fine_mark_never a i
             (mk_threads _ (Some (i, MarkedRunning)) [] [])). reflexivity.
  - apply (fine_attach a i
             (mk_threads _ (Some (i, MarkedNever)) [] [])). reflexivity.
Qed.

Lemma launches_are_statements a t0 : forall l st,
  List.NoDup l ->
  (forall i, In i l -> exists s, schedule st !! i = Some s /\ running s = false) ->
  fine_reachable a t0 (mk_threads st None [] []) ->
  fine_reachable a t0
    (mk_threads (fold_left (fun st' i => launch_scan a i st') l st) None [] []).
Proof.
  induction l as [|i rest IH]; intros st Hnd Hl Hth; [exact Hth|].
  apply NoDup_cons_iff in Hnd as [Hi Hnd].
  destruct (Hl i (or_introl eq_refl)) as (s & Hs & Hr).
  cbn [fold_left]. apply IH; [exact Hnd| |].
  - intros j Hj. assert (i <> j) by congruence.
    rewrite lookup_launch_scan_ne by assumption. apply Hl. now right.
  - now apply (launch_is_four_statements a i s (mk_threads st None [] [])).
Qed.

Lemma remove_first_head i l : remove_first i (i :: l) = l.
Proof. simpl. now rewrite Nat.eqb_refl. Qed.

Lemma reachable_is_fine_reachable a t0 st :
  reachable a t0 st -> fine_reachable a t0 (mk_threads st None [] []).
Proof.
  induction 1 as [|st st' Hreach IH Hstep]; [apply fine_init|].
  destruct Hstep as [now st _|i s st Hs Hr|i r t st Hi].
  - unfold dispatch. apply launches_are_statements; [| |exact IH].
    + apply dispatch_order_nodup.
    + intros i Hi. apply dispatch_order_due, in_due in Hi as (s & Hs & Hd).
      exists s. split; [exact Hs|]. unfold is_due in Hd.
      apply andb_prop in Hd as [Hd _]. now destruct (running s).
  - now apply (launch_is_four_statements a i s (mk_threads st None [] [])).
  - destruct r as [ok d proc| |e].
    + unfold complete. rewrite on_done_in_three_parts by discriminate.
      eapply fine_next; [eapply fine_next; [eapply fine_next; [exact IH|]|]|].
      * apply (fine_report a i (Returned ok d proc)); [exact Hi|discriminate].
      * apply (fine_assign_next a i t). now left.
      * cbn [reported next_assigned shared launching].
        rewrite remove_first_head.
        pose proof (fine_clear_running a i
                      (mk_threads
                         (assign_next_period i t
                            (report i (Returned ok d proc)
                               (set_callbacks (remove_first i) st)))
                         None [] [i]) (or_introl eq_refl)) as H.
        cbn [reported next_assigned shared launching] in H.
        now rewrite remove_first_head in H.
    + eapply fine_next; [exact IH|]. now apply (fine_not_found a i t).
    + unfold complete. rewrite on_done_in_three_parts by discriminate.
      eapply fine_next; [eapply fine_next; [eapply fine_next; [exact IH|]|]|].
      * apply (fine_report a i (RaisedException e)); [exact Hi|discriminate].
      * apply (fine_assign_next a i t). now left.
      * cbn [reported next_assigned shared launching].
        rewrite remove_first_head.
        pose proof (fine_clear_running a i
                      (mk_threads
                         (assign_next_period i t
                            (report i (RaisedException e)
                               (set_callbacks (remove_first i) st)))
                         None [] [i]) (or_introl eq_refl)) as H.
        cbn [reported next_assigned shared launching] in H.
        now rewrite remove_first_head in H.
Qed.

Lemma demo_half_reserved_reachable : fine_reachable demo_args 0 demo_half_reserved.
Proof.
  unfold demo_half_reserved.
  eapply fine_next; [eapply fine_next; [apply fine_init|]|].
  - apply (fine_submit demo_args 0
             (mk_task "example.com" "web_probe" ["-p"; "web-basic"] 900
                      (Finite 0) false)); reflexivity.
  - apply (fine_mark_running demo_args 0
             (mk_threads (ls_submit demo_args 0
                            (ls_log demo_args 0 (initial_state demo_args 0)))
                         (Some (0%nat, Submitted)) [] [])).
    reflexivity.
Defined.

(** C2, with the assignments taken one at a time: after every statement of
    every thread, a task that is not running holds a clock reading in
    [next]; a task that is running holds infinity there, except between the
    two assignments of its reservation or of its rescheduling, where it is
    marked running and holds a clock reading.  So whenever a task is not
    between two such assignments, exactly one of the two holds, from the
    schedule built at startup on. *)
Theorem timestamp_unless_running :
  forall (a : cli_args) (t0 : Q) (th : threads) (i : nat) (s : task),
    fine_reachable a t0 th ->
    schedule (shared th) !! i = Some s ->
    (running s = false -> exists t, next s = Finite t)
    /\ (between_assignments th i ->
        running s = true /\ exists t, next s = Finite t)
    /\ (~ between_assignments th i ->
        (running s = true /\ next s = Infinite)
        \/ (running s = false /\ exists t, next s = Finite t)).
Proof.
  intros a t0 th i s Hreach Hs.
  pose proof (fine_reachable_consistent a t0 th Hreach) as Hc.
  assert (Hfin : forall s', is_finite (next s') = true ->
                            exists t, next s' = Finite t).
  { intros s' H. destruct (next s') as [t|]; [eauto|discriminate]. }
  assert (Hidle : running s = false -> exists t, next s = Finite t).
  { intros Hr. apply Hfin, (idle_has_time th Hc i s Hs Hr). }
  split; [exact Hidle|]. split.
  - intros [Hl|Hin].
    + destruct (launching_place th Hc i MarkedRunning Hl)
        as (_ & s' & Hs' & Hr & Hn).
      assert (s' = s) by congruence. subst s'. split; [exact Hr|now apply Hfin].
    + destruct (busy_running th Hc i (busy_in_next_assigned th i Hin))
        as (s' & Hs' & Hr).
      destruct (next_assigned_has_time th Hc i Hin) as (s'' & Hs'' & Hn).
      assert (s' = s) by congruence. assert (s'' = s) by congruence.
      subst s' s''. split; [exact Hr|now apply Hfin].
  - intros Hnot. destruct (running s) eqn:Hr.
    + left. split; [reflexivity|].
      destruct (running_is_never th Hc i s Hs Hr) as [H|H]; [exact H|contradiction].
    + right. split; [reflexivity|now apply Hidle].
Qed.

Lemma timestamp_unless_running_witness :
  fine_reachable demo_args 0 demo_half_reserved
  /\ schedule (shared demo_half_reserved) !! 0%nat
     = Some (mk_task "example.com" "web_probe" ["-p"; "web-basic"] 900
                     (Finite 0) true)
  /\ between_assignments demo_half_reserved 0
  /\ (true = true /\ exists t, Finite 0 = Finite t).
Proof.
  split; [apply demo_half_reserved_reachable|]. split; [reflexivity|].
  assert (Hb : between_assignments demo_half_reserved 0) by (left; reflexivity).
  split; [exact Hb|].
  exact (proj1 (proj2 (timestamp_unless_running demo_args 0 demo_half_reserved 0
                         (mk_task "example.com" "web_probe" ["-p"; "web-basic"] 900
                                  (Finite 0) true)
                         demo_half_reserved_reachable eq_refl)) Hb).
Defined.

(** C2 for every state does not hold: between lines 138 and 139 of the
    first launch the task is marked running and still holds the clock
    reading of the startup in [next]. *)
Lemma both_hold_between_assignments :
  ~ exactly_one_always demo_args.
Proof.
  intros H.
  specialize (H 0%Q demo_half_reserved 0%nat
                (mk_task "example.com" "web_probe" ["-p"; "web-basic"] 900
                         (Finite 0) true)
                demo_half_reserved_reachable eq_refl).
  discriminate H.
Qed.

(** * A tick with callbacks in between *)

Section Interleaved.

Variable a : cli_args.

Lemma steps_trans st1 st2 st3 :
  steps a st1 st2 -> steps a st2 st3 -> steps a st1 st3.
Proof.
  intros H12 H23. induction H23 as [|st2 st3 st4 _ IH Hstep]; [exact H12|].
  eapply steps_step; [now apply IH|exact Hstep].
Qed.

Lemma reachable_steps t0 st st' :
  reachable a t0 st -> steps a st st' -> reachable a t0 st'.
Proof.
  intros Hr Hs. induction Hs as [|st st' st'' _ IH Hstep]; [exact Hr|].
  eapply reach_step; [now apply IH|exact Hstep].
Qed.

Lemma consistent_steps st st' : consistent st -> steps a st st' -> consistent st'.
Proof.
  intros Hc Hs. induction Hs as [|st st' st'' _ IH Hstep]; [exact Hc|].
  apply (consistent_step a st' st''); [now apply IH|exact Hstep].
Qed.

Lemma static_steps st st' :
  steps a st st' -> map static (schedule st') = map static (schedule st).
Proof.
  intros Hs. induction Hs as [|st st' st'' _ IH Hstep]; [reflexivity|].
  now rewrite (static_step a st' st'' Hstep).
Qed.

Lemma run_callback_cases st c :
  run_callback st c = st
  \/ exists i r t, c = (i, r, t) /\ In i (callbacks st)
                   /\ run_callback st c = complete i r t st.
Proof.
  destruct c as [[i r] t]. unfold run_callback.
  destruct (existsb (Nat.eqb i) (callbacks st)) eqn:E; [|now left].
  right. exists i, r, t. split; [reflexivity|]. split; [|reflexivity].
  apply existsb_exists in E as (j & Hj & Heq).
  apply Nat.eqb_eq in Heq. now subst j.
Qed.

Lemma run_callbacks_steps : forall l st, steps a st (run_callbacks l st).
Proof.
  unfold run_callbacks.
  induction l as [|c rest IH]; intros st; [apply steps_refl|].
  cbn [fold_left]. apply steps_trans with (run_callback st c); [|apply IH].
  destruct (run_callback_cases st c) as [->|(i & r & t & _ & Hi & ->)].
  - apply steps_refl.
  - eapply steps_step; [apply steps_refl|now apply step_done].
Qed.

Lemma submitted_run_callbacks : forall l st,
  submitted (run_callbacks l st) = submitted st.
Proof.
  unfold run_callbacks.
  induction l as [|c rest IH]; intros st; [reflexivity|].
  cbn [fold_left]. rewrite IH.
  destruct (run_callback_cases st c) as [->|(i & r & t & _ & _ & ->)];
    [reflexivity|apply submitted_complete].
Qed.

Lemma length_run_callbacks l st :
  length (schedule (run_callbacks l st)) = length (schedule st).
Proof.
  rewrite <- (length_map static), (static_steps st _ (run_callbacks_steps l st)).
  apply length_map.
Qed.

(** Callbacks leave alone a task that has none attached. *)
Lemma run_callbacks_untouched j : forall l st,
  ~ In j (callbacks st) ->
  schedule (run_callbacks l st) !! j = schedule st !! j
  /\ ~ In j (callbacks (run_callbacks l st)).
Proof.
  unfold run_callbacks.
  induction l as [|c rest IH]; intros st Hj; [now split|].
  cbn [fold_left].
  destruct (run_callback_cases st c) as [Heq|(i & r & t & _ & Hi & Heq)];
    rewrite Heq.
  - now apply IH.
  - assert (Hne : i <> j) by (intros ->; contradiction).
    assert (Hout : ~ In j (callbacks (complete i r t st))).
    { rewrite callbacks_complete. intros H. now apply remove_first_in in H. }
    destruct (IH _ Hout) as [Hsched Hcb]. split; [|exact Hcb].
    rewrite Hsched. unfold complete. rewrite schedule_on_done.
    change (schedule (set_callbacks (remove_first i) st)) with (schedule st).
    destruct (schedule st !! i); [|reflexivity].
    destruct r; try reflexivity; now rewrite lookup_reschedule_ne.
Qed.

(** Callbacks of other tasks leave a task alone. *)
Lemma run_callbacks_other j : forall l st,
  Forall (fun c => fst (fst c) <> j) l ->
  schedule (run_callbacks l st) !! j = schedule st !! j.
Proof.
  unfold run_callbacks.
  induction l as [|c rest IH]; intros st Hl; [reflexivity|].
  cbn [fold_left]. rewrite (IH _ (Forall_inv_tail Hl)).
  pose proof (Forall_inv Hl) as Hc.
  destruct (run_callback_cases st c) as [->|(i & r & t & -> & _ & ->)];
    [reflexivity|].
  simpl in Hc. unfold complete. rewrite schedule_on_done.
  change (schedule (set_callbacks (remove_first i) st)) with (schedule st).
  destruct (schedule st !! i); [|reflexivity].
  destruct r; try reflexivity; now rewrite lookup_reschedule_ne.
Qed.


Lemma submitted_launch_interleaved : forall l cbs st,
  (forall i, In i l -> (i < length (schedule st))%nat) ->
  map fst (submitted (launch_interleaved a l cbs st))
  = (map fst (submitted st) ++ l)%list.
Proof.
  induction l as [|i rest IH]; intros cbs st Hl; cbn [launch_interleaved].
  - now rewrite app_nil_r.
  - rewrite IH.
    + rewrite submitted_run_callbacks, submitted_launch_scan.
      destruct (lookup_lt_is_Some_2 (schedule st) i (Hl i (or_introl eq_refl)))
        as (s & ->).
      rewrite map_app. simpl. now rewrite <- app_assoc.
    + intros j Hj.
      rewrite length_run_callbacks, schedule_launch_scan, !length_alter.
      apply Hl. now right.
Qed.

Lemma lookup_launch_interleaved_other j : forall l cbs st,
  ~ In j l ->
  Forall (Forall (fun c => fst (fst c) <> j)) cbs ->
  schedule (launch_interleaved a l cbs st) !! j = schedule st !! j.
Proof.
  induction l as [|i rest IH]; intros cbs st Hj Hcbs; [reflexivity|].
  cbn [launch_interleaved].
  assert (Hhd : Forall (fun c => fst (fst c) <> j) (hd [] cbs)).
  { destruct cbs as [|cs rest']; [constructor|exact (Forall_inv Hcbs)]. }
  assert (Htl : Forall (Forall (fun c => fst (fst c) <> j)) (tl cbs)).
  { destruct cbs as [|cs rest']; [constructor|exact (Forall_inv_tail Hcbs)]. }
  rewrite IH; [|intros H; apply Hj; now right|exact Htl].
  rewrite (run_callbacks_other j _ _ Hhd).
  apply lookup_launch_scan_ne. intros ->. apply Hj. now left.
Qed.

(** The launches of a tick and the callbacks between them are steps. *)
Lemma launch_interleaved_steps : forall l cbs st,
  consistent st ->
  List.NoDup l ->
  (forall i, In i l -> exists s, schedule st !! i = Some s /\ running s = false) ->
  steps a st (launch_interleaved a l cbs st).
Proof.
  induction l as [|i rest IH]; intros cbs st Hc Hnd Hl; [apply steps_refl|].
  cbn [launch_interleaved].
  apply NoDup_cons_iff in Hnd as [Hi Hnd].
  destruct (Hl i (or_introl eq_refl)) as (s & Hs & Hr).
  assert (H1 : steps a st (launch_scan a i st)).
  { eapply steps_step; [apply steps_refl|]. now apply (step_launch a i s). }
  assert (H2 : steps a st (run_callbacks (hd [] cbs) (launch_scan a i st))).
  { apply steps_trans with (launch_scan a i st); [exact H1|].
    apply run_callbacks_steps. }
  apply steps_trans with (run_callbacks (hd [] cbs) (launch_scan a i st));
    [exact H2|].
  apply IH; [now apply (consistent_steps st)|exact Hnd|].
  intros j Hj. assert (Hne : i <> j) by congruence.
  destruct (Hl j (or_intror Hj)) as (sj & Hsj & Hrj).
  assert (Hout : ~ In j (callbacks (launch_scan a i st))).
  { rewrite callbacks_launch_scan. intros H.
    apply in_app_or in H as [H|[H|[]]]; [|congruence].
    now apply (not_running_not_in_flight st j sj Hc Hsj Hrj). }
  destruct (run_callbacks_untouched j (hd [] cbs) _ Hout) as [Hsched _].
  exists sj. split; [|exact Hrj].
  rewrite Hsched. now rewrite lookup_launch_scan_ne.
Qed.

Lemma tick_steps now cbs st : consistent st -> steps a st (tick a now cbs st).
Proof.
  intros Hc. unfold tick. apply launch_interleaved_steps; [exact Hc| |].
  - apply dispatch_order_nodup.
  - intros i Hi. apply dispatch_order_due, due_has_time in Hi
      as (s & t & Hs & Hr & _). eauto.
Qed.

End Interleaved.



(** X17: A callback changes no task but its own, and a launch none but the
    one it launches.  A tick, whatever callbacks run while it makes its
    launches, leaves as it was every task that is neither due at its head
    nor completed by one of those callbacks, and submits every task that is
    due at its head. *)
Theorem tasks_are_independent :
  forall (a : cli_args) (now : Q) (cbs : list (list (nat * fut_result * Q)))
         (st : state) (j : nat),
    (forall i r t, i <> j ->
       schedule (complete i r t st) !! j = schedule st !! j)
    /\ (forall i, i <> j ->
          schedule (launch_scan a i st) !! j = schedule st !! j)
    /\ (~ In j (due now (schedule st)) ->
        Forall (Forall (fun c => fst (fst c) <> j)) cbs ->
        schedule (tick a now cbs st) !! j = schedule st !! j)
    /\ (In j (due now (schedule st)) ->
        In j (map fst (submitted (tick a now cbs st)))).
Proof.
  intros a now cbs st j. split; [|split; [|split]].
  - intros i r t Hne. unfold complete. rewrite schedule_on_done.
    change (schedule (set_callbacks (remove_first i) st)) with (schedule st).
    destruct (schedule st !! i); [|reflexivity].
    destruct r; try reflexivity; now rewrite lookup_reschedule_ne.
  - intros i Hne. now apply lookup_launch_scan_ne.
  - intros Hout Hcbs. unfold tick.
    apply lookup_launch_interleaved_other; [|exact Hcbs].
    now rewrite dispatch_order_due.
  - intros Hin. apply dispatch_order_due in Hin. unfold tick.
    rewrite submitted_launch_interleaved.
    + apply in_or_app. now right.
    + intros i Hi. now apply dispatch_order_in_range with now.
Qed.

Lemma tasks_are_independent_witness :
  In 0%nat (due 1000 (schedule demo_waiting))
  /\ ~ In 1%nat (due 1000 (schedule demo_waiting))
  /\ In 0%nat (map fst (submitted
                          (tick demo_args 1000
                                [[(0%nat, demo_failed_run, 1001%Q)]] demo_waiting)))
  /\ schedule (tick demo_args 1000 [[(0%nat, demo_failed_run, 1001%Q)]] demo_waiting)
       !! 1%nat
     = schedule demo_waiting !! 1%nat.
Proof.
  assert (H0 : In 0%nat (due 1000 (schedule demo_waiting))) by (vm_compute; auto).
  assert (H1 : ~ In 1%nat (due 1000 (schedule demo_waiting))).
  { vm_compute. intros [H|[]]. discriminate. }
  split; [exact H0|]. split; [exact H1|]. split.
  - exact (proj2 (proj2 (proj2 (tasks_are_independent demo_args 1000
                                  [[(0%nat, demo_failed_run, 1001%Q)]]
                                  demo_waiting 0))) H0).
  - apply (proj1 (proj2 (proj2 (tasks_are_independent demo_args 1000
                                  [[(0%nat, demo_failed_run, 1001%Q)]]
                                  demo_waiting 1))) H1).
    repeat constructor; discriminate.
Defined.

(** X18: The domains are not deduplicated: when a domain is listed twice, the
    first tick submits the same web probe command twice, once for each of
    the two tasks, whatever callbacks run while it makes its launches. *)
Theorem duplicate_domain_submitted_twice :
  forall (a : cli_args) (t0 now : Q) (cbs : list (list (nat * fut_result * Q)))
         (j k : nat) (d : string),
    (t0 <= now)%Q ->
    j <> k ->
    domains a !! j = Some d ->
    domains a !! k = Some d ->
    exists cmd,
      In ((2 * j)%nat, cmd) (submitted (tick a now cbs (initial_state a t0)))
      /\ In ((2 * k)%nat, cmd) (submitted (tick a now cbs (initial_state a t0)))
      /\ (2 * j <> 2 * k)%nat
      /\ cmd = ([ "sudo"; "/home/kali/.local/bin/bbot"; "-t"; d;
                  "-om"; "http"; "-c"; ("modules.http.url=" ++ api a)%string;
                  "modules.http.siem_friendly=true";
                  "modules.http.username=user1";
                  "modules.http.password=password"; "--yes";
                  "-p"; "web-basic" ])%list.
Proof.
  intros a t0 now cbs j k d Hle Hne Hj Hk.
  set (st := tick a now cbs (initial_state a t0)).
  assert (Hsteps : steps a (initial_state a t0) st)
    by apply tick_steps, consistent_init.
  assert (Hreach : reachable a t0 st).
  { apply (reachable_steps a t0 (initial_state a t0)); [apply reach_init|exact Hsteps]. }
  pose proof (reachable_commands_match a t0 st Hreach) as Hmatch.
  assert (Hfst : map fst (submitted st) = seq 0 (2 * length (domains a))).
  { subst st. unfold tick.
    change (schedule (initial_state a t0)) with (build_schedule (domains a) t0).
    rewrite first_dispatch_order by exact Hle.
    rewrite submitted_launch_interleaved; [reflexivity|].
    intros i Hi. apply in_seq in Hi.
    change (schedule (initial_state a t0)) with (build_schedule (domains a) t0).
    rewrite length_build_schedule. lia. }
  assert (Hcmd : forall m, domains a !! m = Some d ->
            In ((2 * m)%nat,
                launch_cmd a (mk_task d "web_probe" ["-p"; "web-basic"] 900
                                      (Finite t0) false))
               (submitted st)).
  { intros m Hm.
    assert (Hlt : (2 * m < 2 * length (domains a))%nat).
    { apply lookup_lt_Some in Hm. lia. }
    assert (Hin : In (2 * m)%nat (map fst (submitted st))).
    { rewrite Hfst. apply in_seq. lia. }
    apply in_map_iff in Hin as ([i cmd] & Hi & Hin). cbn [fst] in Hi. subst i.
    destruct (Hmatch _ _ Hin) as (s & Hs & ->).
    destruct (lookup_build_schedule_even (domains a) t0 m d Hm) as (s0 & Hs0 & Hst0).
    pose proof (static_steps a _ _ Hsteps) as Hstatic.
    destruct (lookup_static _ _ (2 * m)%nat s0 Hstatic Hs0) as (s' & Hs' & Hst').
    assert (s' = s) by congruence. subst s'.
    erewrite <- launch_cmd_static; [exact Hin|].
    rewrite Hst', Hst0. reflexivity. }
  eexists. split; [exact (Hcmd j Hj)|]. split; [exact (Hcmd k Hk)|].
  split; [lia|reflexivity].
Qed.

Lemma duplicate_domain_submitted_twice_witness :
  (0 <= 1)%Q
  /\ exists cmd,
       In (0%nat, cmd)
          (submitted (tick (mk_args ["example.com"; "example.com"] "u" None None) 1
                           [[(0%nat, run_scan 1 1 (Failed "boom"), 1%Q)]]
                           (initial_state
                              (mk_args ["example.com"; "example.com"] "u" None None)
                              0)))
       /\ In (2%nat, cmd)
             (submitted (tick (mk_args ["example.com"; "example.com"] "u" None None) 1
                              [[(0%nat, run_scan 1 1 (Failed "boom"), 1%Q)]]
                              (initial_state
                                 (mk_args ["example.com"; "example.com"] "u"
                                          None None) 0))).
Proof.
  assert (H : (0 <= 1)%Q) by (vm_compute; discriminate).
  split; [exact H|].
  destruct (duplicate_domain_submitted_twice
              (mk_args ["example.com"; "example.com"] "u" None None)
              0 1 [[(0%nat, run_scan 1 1 (Failed "boom"), 1%Q)]]
              0 1 "example.com" H) as (cmd & H0 & H2 & _);
    [discriminate|reflexivity|reflexivity|].
  exists cmd. split; [exact H0|exact H2].
Defined.
